(** * Blocking on a sender: [hpx::this_thread::experimental::sync_wait]

    A shallow embedding of
    [libs/core/execution/include/hpx/execution/algorithms/sync_wait.hpp]:
    the type deduction done by [sync_wait_receiver], its [shared_state]
    with [wait] and [get_value], the three completion functions of the
    receiver, the generic blocking call and the dispatch between it and a
    scheduler's own implementation. *)

From Stdlib Require Import String List ZArith Bool Arith Lia.
Import ListNotations.
Open Scope string_scope.
Open Scope list_scope.

Set Implicit Arguments.

(** ** C++ types and [std::decay_t] *)

(** The fragment of the C++ type grammar that decides what [std::decay_t]
    does: named object types, cv-qualifiers, pointers, arrays, function
    types and the two kinds of reference. *)
Inductive ctype : Type :=
| Named (n : string)
| Const (t : ctype)
| Volatile (t : ctype)
| Pointer (t : ctype)
| ArrayOf (t : ctype) (extent : nat)
| Func (signature : string)
| LRef (t : ctype)
| RRef (t : ctype).

Fixpoint ctype_eqb (a b : ctype) : bool :=
  match a, b with
  | Named n, Named m => String.eqb n m
  | Const t, Const u => ctype_eqb t u
  | Volatile t, Volatile u => ctype_eqb t u
  | Pointer t, Pointer u => ctype_eqb t u
  | ArrayOf t n, ArrayOf u m => ctype_eqb t u && Nat.eqb n m
  | Func s, Func r => String.eqb s r
  | LRef t, LRef u => ctype_eqb t u
  | RRef t, RRef u => ctype_eqb t u
  | _, _ => false
  end.

(** [std::remove_reference_t] *)
Definition remove_reference (t : ctype) : ctype :=
  match t with
  | LRef u => u
  | RRef u => u
  | _ => t
  end.

(** [std::remove_cv_t]: the top-level qualifiers only. *)
Fixpoint remove_cv (t : ctype) : ctype :=
  match t with
  | Const u => remove_cv u
  | Volatile u => remove_cv u
  | _ => t
  end.

(** [std::decay_t]: drop the reference; an array becomes a pointer to its
    element, a function a pointer to itself, anything else loses its
    top-level cv-qualifiers. *)
Definition decay (t : ctype) : ctype :=
  match remove_reference t with
  | ArrayOf e _ => Pointer e
  | Func s => Pointer (Func s)
  | u => remove_cv u
  end.

Definition is_reference (t : ctype) : bool :=
  match t with
  | LRef _ | RRef _ => true
  | _ => false
  end.

Definition is_cv_qualified (t : ctype) : bool :=
  match t with
  | Const _ | Volatile _ => true
  | _ => false
  end.

(** The types C++ can form: no reference to a reference, no qualified
    reference (both collapse), nothing built on top of a reference. *)
Fixpoint object_type (t : ctype) : bool :=
  match t with
  | Named _ | Func _ => true
  | Const u | Volatile u | Pointer u | ArrayOf u _ => object_type u
  | LRef _ | RRef _ => false
  end.

Definition well_formed (t : ctype) : bool :=
  match t with
  | LRef u | RRef u => object_type u
  | _ => object_type t
  end.

Definition exception_ptr : ctype := Named "std::exception_ptr".

(** ** Type packs ([hpx/type_support/pack.hpp]) *)

Section Unique.
Variable A : Type.
Variable eqb : A -> A -> bool.

Definition contains (x : A) (l : list A) : bool := existsb (eqb x) l.

(** Modelled from the spec: [hpx::util::detail::unique_t] lives in
    [hpx/type_support/pack.hpp], which is not part of the sources at
    hand.  The spec calls its result "a deduplicated set" in which the
    prepended alternative is "always present first"; the elements are
    scanned left to right and one is kept when it has not been seen. *)
Fixpoint unique_helper (seen rest : list A) : list A :=
  match rest with
  | [] => seen
  | x :: xs =>
      if contains x seen then unique_helper seen xs
      else unique_helper (seen ++ [x]) xs
  end.

Definition unique_t (l : list A) : list A := unique_helper [] l.

(** Modelled from the spec: [hpx::util::detail::prepend_t<Pack, T>], from
    the same header; "always prepend a universal opaque-capture
    alternative". *)
Definition prepend_t (l : list A) (x : A) : list A := x :: l.

(** Modelled from the spec: [single_variant_t], declared in
    [hpx/execution/algorithms/detail/single_result.hpp], not part of
    the sources at hand.  "Exactly one value-signature shape must exist;
    more than one is a static contract violation": the pack of one
    element yields that element, any other pack trips the
    [static_assert] the comment above [single_result_type] refers to. *)
Definition single_variant_t (l : list A) : option A :=
  match l with
  | [x] => Some x
  | _ => None
  end.

(** The position of the first element equal to [x]. *)
Fixpoint index_of (x : A) (l : list A) : option nat :=
  match l with
  | [] => None
  | y :: ys =>
      if eqb x y then Some 0 else option_map S (index_of x ys)
  end.
End Unique.

(** [make_decayed_pack_t<Pack<Ts...>>] is [Pack<std::decay_t<Ts>...>]. *)
Definition make_decayed_pack_t (p : list ctype) : list ctype := map decay p.

(** ** Values *)

(** What an object holds.  A [std::exception_ptr] is either null or refers
    to a captured exception object, of some type and content. *)
Inductive data : Type :=
| DInt (z : Z)
| DStr (s : string)
| DNull
| DExn (ty : ctype) (content : data).

(** An argument of a completion function: the type of the expression and
    the object it denotes. *)
Record cvalue : Type := CValue { vtype : ctype; vdata : data }.

(** Constructing an object of type [decay_t<T>] from an expression of
    type [T]: a copy or a move, the content is the same. *)
Definition decay_copy (v : cvalue) : cvalue :=
  {| vtype := decay (vtype v); vdata := vdata v |}.

(** A template that is instantiated either compiles or is rejected by the
    compiler; nothing runs in the second case. *)
Inductive static (A : Type) : Type :=
| Rejected
| Accepted (a : A).
Arguments Rejected {A}.

Definition static_bind {A B} (x : static A) (f : A -> static B) : static B :=
  match x with
  | Rejected => Rejected
  | Accepted a => f a
  end.

Definition static_of_option {A} (x : option A) : static A :=
  match x with
  | Some a => Accepted a
  | None => Rejected
  end.

Notation "x <- c ;; k" := (static_bind c (fun x => k))
  (at level 61, c at next level, right associativity).

(** What the call does once it runs. *)
Inductive outcome : Type :=
| Returned (r : option (list cvalue))  (* hpx::optional<single_result_type> *)
| Raised (ty : ctype) (content : data) (* an exception leaves the call *)
| Undefined                            (* a precondition of the library broken *)
| NeverReturns.                        (* the caller stays parked *)

(** The conversions of the C++ program at hand that the header relies on
    without spelling them out: how an object of one type is converted to
    another type, and which alternative the converting constructor of
    [hpx::variant] selects for an argument whose type is none of the
    alternatives.  [None] means the construction does not compile. *)
Record conversions : Type := {
  implicit : ctype -> cvalue -> option data;
  overload : list ctype -> cvalue -> option nat
}.

(** A program whose types convert to nothing but themselves, as [int] and
    [std::exception_ptr] do. *)
Definition no_conversions : conversions :=
  {| implicit := fun _ _ => None; overload := fun _ _ => None |}.

(** ** Senders *)

(** The completion function the started operation ends up calling on the
    receiver. *)
Inductive completion : Type :=
| CompleteValue (us : list cvalue)
| CompleteError (e : cvalue)
| CompleteStopped.

(** A scheduler, with its own [tag_invoke(sync_wait_t, scheduler, sender)]
    when it has one. *)
Record scheduler : Type := {
  scheduler_name : string;
  scheduler_sync_wait : option (completion -> outcome)
}.

(** The static side of the argument of the call: whether its type is a
    sender at all and, for a sender, what it declares: its
    [set_value_t(Ts...)] signatures, its error types, whether it can stop,
    and the completion scheduler of its value channel when
    [get_completion_scheduler<set_value_t>] is valid. *)
Record sender_type : Type := {
  is_sender_v : bool;
  value_signatures : list (list ctype);
  error_signatures : list ctype;
  sends_stopped : bool;
  completion_scheduler : option scheduler
}.

Record sender : Type := {
  stype : sender_type;
  completes : completion
}.

(** ** Type deduction in [sync_wait_receiver] *)

Fixpoint tuple_eqb (a b : list ctype) : bool :=
  match a, b with
  | [], [] => true
  | x :: xs, y :: ys => ctype_eqb x y && tuple_eqb xs ys
  | _, _ => false
  end.

(** Modelled from the spec: [value_types_of_t<Sender, empty_env, Tuple,
    Variant>] comes from [hpx/execution_base/completion_signatures.hpp],
    not part of the sources at hand.  It gives the [Variant] of the
    [Tuple]s of the declared value signatures; the spec counts "distinct
    value-signature shapes", so a shape declared twice appears once. *)
Definition predecessor_value_types (s : sender_type) : list (list ctype) :=
  unique_t tuple_eqb (value_signatures s).

(** Modelled from the spec: [error_types_of_t<Sender, empty_env, Variant>],
    from the same header: "all declared error types". *)
Definition predecessor_error_types (s : sender_type) : list ctype :=
  error_signatures s.

(** [single_result_type]: the one tuple of the value types, decayed.  The
    deduction fails when [single_variant_t] does. *)
Definition single_result_type (s : sender_type) : static (list ctype) :=
  t <- static_of_option (single_variant_t (predecessor_value_types s)) ;;
  Accepted (make_decayed_pack_t t).

(** [error_type]: the alternatives of the variant that stores an error. *)
Definition error_type (s : sender_type) : list ctype :=
  unique_t ctype_eqb (prepend_t (predecessor_error_types s) exception_ptr).

(** ** The shared state *)

Inductive thread : Type := Producer | Consumer.

(** [hpx::variant<hpx::monostate, error_type, result_type> value]: an error
    is stored with the index of its alternative in [error_type]; the one
    alternative of [result_type] is the result tuple. *)
Inductive cell : Type :=
| Monostate
| ErrorAlt (index : nat) (e : cvalue)
| ResultAlt (t : list cvalue).

(** [struct shared_state]: the threads parked on [cond_var], the owner of
    [mtx] when it is held, the flag and the value. *)
Record shared_state : Type := {
  cond_var : list thread;
  mtx : option thread;
  set_called : bool;
  value : cell
}.

(** [state_type state{};] *)
Definition fresh_state : shared_state :=
  {| cond_var := []; mtx := None; set_called := false; value := Monostate |}.

Definition with_value (st : shared_state) (c : cell) : shared_state :=
  {| cond_var := cond_var st; mtx := mtx st;
     set_called := set_called st; value := c |}.

Definition with_set_called (st : shared_state) (b : bool) : shared_state :=
  {| cond_var := cond_var st; mtx := mtx st;
     set_called := b; value := value st |}.

Definition with_mtx (st : shared_state) (o : option thread) : shared_state :=
  {| cond_var := cond_var st; mtx := o;
     set_called := set_called st; value := value st |}.

Definition with_cond_var (st : shared_state) (q : list thread)
  : shared_state :=
  {| cond_var := q; mtx := mtx st;
     set_called := set_called st; value := value st |}.

(** *** The lock and the condition variable *)

Definition thread_eqb (a b : thread) : bool :=
  match a, b with
  | Producer, Producer | Consumer, Consumer => true
  | _, _ => false
  end.

(** Taking [mtx]: possible when nobody holds it. *)
Definition lock (t : thread) (st : shared_state) : option shared_state :=
  match mtx st with
  | None => Some (with_mtx st (Some t))
  | Some _ => None
  end.

Definition unlock (st : shared_state) : shared_state := with_mtx st None.

(** Modelled from the spec: [hpx::condition_variable] is declared in
    [hpx/synchronization/condition_variable.hpp], not part of the sources
    at hand.  [wait(l)] puts the caller among the parked threads and
    releases [l] in one step; the caller "blocks on the condition variable
    until notified" and takes [l] again before [wait] returns;
    [notify_one] releases "exactly one waiter". *)
Definition cond_wait_park (t : thread) (st : shared_state) : shared_state :=
  with_mtx (with_cond_var st (cond_var st ++ [t])) None.

Definition parked (t : thread) (st : shared_state) : bool :=
  existsb (thread_eqb t) (cond_var st).

Definition notify_one (st : shared_state) : shared_state :=
  with_cond_var st (tl (cond_var st)).

(** *** Constructing the stored alternatives *)

Section Construction.
Variable cxx : conversions.

(** One element of [hpx::tuple<std::decay_t<Ts>...>] built from the
    argument forwarded for it. *)
Definition element_construct (target : ctype) (u : cvalue)
  : static cvalue :=
  if ctype_eqb (decay (vtype u)) target then Accepted (decay_copy u)
  else d <- static_of_option (implicit cxx target u) ;;
       Accepted {| vtype := target; vdata := d |}.

(** [single_result_type] built from [hpx::forward_as_tuple(us...)]:
    element by element, for tuples of the same size. *)
Fixpoint tuple_construct (targets : list ctype) (us : list cvalue)
  : static (list cvalue) :=
  match targets, us with
  | [], [] => Accepted []
  | t :: ts, u :: us' =>
      x <- element_construct t u ;;
      xs <- tuple_construct ts us' ;;
      Accepted (x :: xs)
  | _, _ => Rejected
  end.

(** [error_type] built from one argument, by the converting constructor
    of the variant: the alternative of the argument's own (decayed) type
    when there is one, what overload resolution finds otherwise. The
    alternatives are distinct, [unique_t] made them so. *)
Definition variant_construct (alts : list ctype) (e : cvalue)
  : static (nat * cvalue) :=
  match index_of ctype_eqb (decay (vtype e)) alts with
  | Some i => Accepted (i, decay_copy e)
  | None =>
      i <- static_of_option (overload cxx alts e) ;;
      t <- static_of_option (nth_error alts i) ;;
      d <- static_of_option (implicit cxx t e) ;;
      Accepted (i, {| vtype := t; vdata := d |})
  end.

(** [r.state.value.template emplace<result_type>(
      hpx::forward_as_tuple(HPX_FORWARD(Us, us)...))] *)
Definition emplace_result (rt : list ctype) (us : list cvalue)
  : static cell :=
  t <- tuple_construct rt us ;; Accepted (ResultAlt t).

(** [r.state.value.template emplace<error_type>(
      HPX_FORWARD(Error, error))] *)
Definition emplace_error (alts : list ctype) (e : cvalue) : static cell :=
  p <- variant_construct alts e ;; Accepted (ErrorAlt (fst p) (snd p)).
End Construction.

(** *** The receiver, when nothing runs beside it *)

(** [signal_set_called]: take the lock, set the flag, wake one parked
    thread, release the lock.  Alone, a thread that finds the lock held
    waits for it for good. *)
Definition signal_set_called (st : shared_state) : option shared_state :=
  match lock Producer st with
  | Some l => Some (unlock (notify_one (with_set_called l true)))
  | None => None
  end.

Section Receiver.
Variable cxx : conversions.
Variable rt : list ctype.     (* single_result_type *)
Variable alts : list ctype.   (* error_type *)

Definition set_error (st : shared_state) (e : cvalue)
  : static (option shared_state) :=
  c <- emplace_error cxx alts e ;;
  Accepted (signal_set_called (with_value st c)).

Definition set_stopped (st : shared_state) : option shared_state :=
  signal_set_called st.

Definition set_value (st : shared_state) (us : list cvalue)
  : static (option shared_state) :=
  c <- emplace_result cxx rt us ;;
  Accepted (signal_set_called (with_value st c)).

(** [connect] and [start]: the operation runs and calls one completion
    function of the receiver, once. *)
Definition start (c : completion) (st : shared_state)
  : static (option shared_state) :=
  match c with
  | CompleteValue us => set_value st us
  | CompleteError e => set_error st e
  | CompleteStopped => Accepted (set_stopped st)
  end.
End Receiver.

(** [std::rethrow_exception]: the captured exception object is thrown
    again; the handle must not be null. *)
Definition rethrow_exception (ep : data) : outcome :=
  match ep with
  | DExn ty content => Raised ty content
  | _ => Undefined
  end.

(** [sync_wait_error_visitor]: the overload for [std::exception_ptr]
    rethrows, the generic one throws a copy of the stored error. *)
Definition sync_wait_error_visitor (e : cvalue) : outcome :=
  if ctype_eqb (remove_cv (vtype e)) exception_ptr
  then rethrow_exception (vdata e)
  else Raised (remove_cv (vtype e)) (vdata e).

(** [shared_state::get_value] *)
Definition get_value (st : shared_state) : outcome :=
  match value st with
  | ResultAlt t => Returned (Some t)
  | ErrorAlt _ e => sync_wait_error_visitor e
  | Monostate => Returned None
  end.

(** [shared_state::wait] for a caller beside which nothing runs any more:
    with the flag unset at the second look it parks on [cond_var] and
    nobody is left to notify it. *)
Definition wait (st : shared_state) : option shared_state :=
  if negb (set_called st) then
    match lock Consumer st with
    | Some l =>
        if negb (set_called l) then None
        else Some (unlock l)
    | None => None
    end
  else Some st.

(** ** The generic blocking call: [tag_fallback_invoke(sync_wait_t, sender)] *)

Definition tag_fallback_invoke (cxx : conversions) (s : sender)
  : static outcome :=
  rt <- single_result_type (stype s) ;;
  let alts := error_type (stype s) in
  completed <- start cxx rt alts (completes s) fresh_state ;;
  Accepted (match completed with
            | Some st =>
                match wait st with
                | Some st' => get_value st'
                | None => NeverReturns
                end
            | None => NeverReturns
            end).

(** ** Dispatch: [sync_wait_t] *)

(** Which implementation a call was dispatched to. *)
Inductive tier : Type :=
| SchedulerOverride (name : string)
| GenericFallback.

Record call : Type := { path : tier; result : outcome }.

(** Modelled from the spec: [is_completion_scheduler_tag_invocable_v<
    set_value_t, Sender, sync_wait_t>] is declared outside the sources at
    hand: "the sender exposes a completion scheduler for its value
    channel, and that scheduler supplies its own specialized
    blocking-wait implementation". *)
Definition completion_scheduler_override (s : sender_type)
  : option (scheduler * (completion -> outcome)) :=
  match completion_scheduler s with
  | Some sch =>
      match scheduler_sync_wait sch with
      | Some impl => Some (sch, impl)
      | None => None
      end
  | None => None
  end.

Definition is_completion_scheduler_tag_invocable_v (s : sender_type) : bool :=
  match completion_scheduler_override s with
  | Some _ => true
  | None => false
  end.

(** The constraint of [tag_override_invoke(sync_wait_t, Sender&&)]. *)
Definition tag_override_viable (s : sender_type) : bool :=
  is_sender_v s && is_completion_scheduler_tag_invocable_v s.

(** The constraint of [tag_fallback_invoke(sync_wait_t, Sender&&)]. *)
Definition tag_fallback_viable (s : sender_type) : bool := is_sender_v s.

(** [tag_override_invoke]: fetch the completion scheduler of the value
    channel and hand the sender to its [tag_invoke(sync_wait_t, ...)]. *)
Definition tag_override_invoke (s : sender) : static call :=
  p <- static_of_option (completion_scheduler_override (stype s)) ;;
  Accepted {| path := SchedulerOverride (scheduler_name (fst p));
              result := snd p (completes s) |}.

(** Modelled from the spec: the call operator of [sync_wait_t] is inherited
    from [hpx::functional::detail::tag_priority], not part of the sources
    at hand.  "Two-tier, resolved at compile time": the override when its
    constraint holds, the fallback "whenever no specialized override
    exists". *)
Definition sync_wait (cxx : conversions) (s : sender) : static call :=
  if tag_override_viable (stype s) then tag_override_invoke s
  else if tag_fallback_viable (stype s) then
    r <- tag_fallback_invoke cxx s ;;
    Accepted {| path := GenericFallback; result := r |}
  else Rejected.

(** The choice depends on the type of the sender alone. *)
Definition selected_tier (s : sender_type) : static tier :=
  if tag_override_viable s then
    p <- static_of_option (completion_scheduler_override s) ;;
    Accepted (SchedulerOverride (scheduler_name (fst p)))
  else if tag_fallback_viable s then Accepted GenericFallback
  else Rejected.

(** *** The deferred form *)

Inductive tag : Type := sync_wait_t.

(** Modelled from the spec: [partial_algorithm<Tag>] is declared in
    [hpx/execution/algorithms/detail/partial_algorithm.hpp], not part of
    the sources at hand: "a deferred/partial stage object that, when later
    combined with a sender, performs the full sequence".  The object
    remembers the algorithm and the arguments given so far, none here. *)
Record partial_algorithm : Type := {
  algorithm : tag;
  bound_arguments : list cvalue
}.

(** [tag_fallback_invoke(sync_wait_t)]: the call without a sender. *)
Definition sync_wait_deferred : partial_algorithm :=
  {| algorithm := sync_wait_t; bound_arguments := [] |}.

(** Modelled from the spec: [sender | partial], from the same header,
    calls the remembered algorithm on the sender followed by the
    remembered arguments; [sync_wait_t] has no overload with more
    arguments than the sender. *)
Definition pipe (cxx : conversions) (s : sender) (p : partial_algorithm)
  : static call :=
  match algorithm p, bound_arguments p with
  | sync_wait_t, [] => sync_wait cxx s
  | sync_wait_t, _ :: _ => Rejected
  end.

(** ** The two threads of one call *)

(** The steps of the thread that runs the completion function. *)
Inductive producer_pc : Type :=
| PEmplace (c : cell)  (* r.state.value.emplace<...>(...) *)
| PLock                (* std::unique_lock<mutex_type> l(state.mtx) *)
| PSetCalled           (* state.set_called = true *)
| PNotify              (* state.cond_var.notify_one() *)
| PUnlock              (* l goes out of scope *)
| PDone.

(** The steps of the calling thread from [state.wait()] on. *)
Inductive consumer_pc : Type :=
| CFastCheck           (* if (!set_called) *)
| CLock                (* std::unique_lock<mutex_type> l(mtx) *)
| CRecheck             (* if (!set_called), under the lock *)
| CCondWait            (* cond_var.wait(l): park and release the lock *)
| CParked              (* inside cond_var.wait(l) *)
| CUnlock              (* l goes out of scope *)
| CGetValue            (* state.get_value() *)
| CReturned (o : outcome).

Record machine : Type := {
  shared : shared_state;
  producer : producer_pc;
  consumer : consumer_pc
}.

Definition at_producer (m : machine) (st : shared_state) (pc : producer_pc)
  : machine :=
  {| shared := st; producer := pc; consumer := consumer m |}.

Definition at_consumer (m : machine) (st : shared_state) (pc : consumer_pc)
  : machine :=
  {| shared := st; producer := producer m; consumer := pc |}.

(** One step of one thread; [None] when the thread cannot move. *)
Definition step (t : thread) (m : machine) : option machine :=
  let st := shared m in
  match t with
  | Producer =>
      match producer m with
      | PEmplace c => Some (at_producer m (with_value st c) PLock)
      | PLock =>
          option_map (fun st' => at_producer m st' PSetCalled)
                     (lock Producer st)
      | PSetCalled => Some (at_producer m (with_set_called st true) PNotify)
      | PNotify => Some (at_producer m (notify_one st) PUnlock)
      | PUnlock => Some (at_producer m (unlock st) PDone)
      | PDone => None
      end
  | Consumer =>
      match consumer m with
      | CFastCheck =>
          Some (at_consumer m st (if set_called st then CGetValue else CLock))
      | CLock =>
          option_map (fun st' => at_consumer m st' CRecheck)
                     (lock Consumer st)
      | CRecheck =>
          Some (at_consumer m st (if set_called st then CUnlock
                                  else CCondWait))
      | CCondWait => Some (at_consumer m (cond_wait_park Consumer st) CParked)
      | CParked =>
          if parked Consumer st then None
          else option_map (fun st' => at_consumer m st' CUnlock)
                          (lock Consumer st)
      | CUnlock => Some (at_consumer m (unlock st) CGetValue)
      | CGetValue => Some (at_consumer m st (CReturned (get_value st)))
      | CReturned _ => None
      end
  end.

(** The threads run in the order a schedule gives; a schedule that asks a
    thread to move when it cannot is not a run. *)
Fixpoint run (schedule : list thread) (m : machine) : option machine :=
  match schedule with
  | [] => Some m
  | t :: ts =>
      match step t m with
      | Some m' => run ts m'
      | None => None
      end
  end.

(** The completion function starts with the store, when it makes one. *)
Definition producer_entry (write : option cell) : producer_pc :=
  match write with
  | Some c => PEmplace c
  | None => PLock
  end.

(** The call has made its state and started the operation; the caller is
    about to enter [wait]. *)
Definition started (write : option cell) : machine :=
  {| shared := fresh_state;
     producer := producer_entry write;
     consumer := CFastCheck |}.

(** What the completion function of a sender stores. *)
Definition completion_write (cxx : conversions) (rt alts : list ctype)
  (c : completion) : static (option cell) :=
  match c with
  | CompleteValue us => x <- emplace_result cxx rt us ;; Accepted (Some x)
  | CompleteError e => x <- emplace_error cxx alts e ;; Accepted (Some x)
  | CompleteStopped => Accepted None
  end.

(** The generic call as the two threads it is made of. *)
Definition boot (cxx : conversions) (s : sender) : static machine :=
  rt <- single_result_type (stype s) ;;
  w <- completion_write cxx rt (error_type (stype s)) (completes s) ;;
  Accepted (started w).

(** The caller is past every point of [wait] where it can be held up:
    [cond_var.wait] has returned or was not entered, [wait] has returned
    or is about to. *)
Definition released (pc : consumer_pc) : bool :=
  match pc with
  | CUnlock | CGetValue | CReturned _ => true
  | _ => false
  end.

(** The completion function has set the flag. *)
Definition fired (pc : producer_pc) : bool :=
  match pc with
  | PNotify | PUnlock | PDone => true
  | _ => false
  end.

(** The completion function has yet to call [notify_one]. *)
Definition notification_ahead (pc : producer_pc) : bool :=
  match pc with
  | PUnlock | PDone => false
  | _ => true
  end.

Definition stuck (m : machine) : Prop :=
  step Producer m = None /\ step Consumer m = None.

(** Every run of the machine can be taken to a point where neither thread
    can move, and at every such point the caller has returned [o]. *)
Definition every_run_returns (m0 : machine) (o : outcome) : Prop :=
  forall schedule m,
    run schedule m0 = Some m ->
    (exists rest m', run rest m = Some m' /\ stuck m') /\
    (stuck m -> consumer m = CReturned o).

(** What a condition variable that lets [wait(l)] return without a
    notification would add to the steps of the caller: it leaves the
    parked threads on its own and takes the lock again. *)
Definition spurious_wakeup (m : machine) : option machine :=
  match consumer m with
  | CParked =>
      let st := shared m in
      let q := filter (fun t => negb (thread_eqb Consumer t)) (cond_var st) in
      option_map (fun st' => at_consumer m st' CUnlock)
                 (lock Consumer (with_cond_var st q))
  | _ => None
  end.

(** *** What the two program counters say about the shared state *)

(** The cell the completion function leaves behind. *)
Definition stored (write : option cell) : cell :=
  match write with
  | Some c => c
  | None => Monostate
  end.

(** The owner of [mtx], read off the program counters. *)
Definition mtx_of (p : producer_pc) (c : consumer_pc) : option thread :=
  match p with
  | PSetCalled | PNotify | PUnlock => Some Producer
  | _ =>
      match c with
      | CRecheck | CCondWait | CUnlock => Some Consumer
      | _ => None
      end
  end.

(** The threads parked on [cond_var]: the caller, from the moment it
    parks to the moment [notify_one] has run. *)
Definition queue_of (p : producer_pc) (c : consumer_pc) : list thread :=
  match c with
  | CParked =>
      match p with
      | PUnlock | PDone => []
      | _ => [Consumer]
      end
  | _ => []
  end.

Definition value_of (write : option cell) (p : producer_pc) : cell :=
  match p with
  | PEmplace _ => Monostate
  | _ => stored write
  end.

(** The pairs of program counters a run can be at. *)
Definition compatible (p : producer_pc) (c : consumer_pc) : bool :=
  match c with
  | CFastCheck | CLock | CParked => true
  | CRecheck =>
      match p with
      | PEmplace _ | PLock | PDone => true
      | _ => false
      end
  | CCondWait =>
      match p with
      | PEmplace _ | PLock => true
      | _ => false
      end
  | CUnlock =>
      match p with
      | PDone => true
      | _ => false
      end
  | CGetValue | CReturned _ => fired p
  end.

Record consistent (write : option cell) (m : machine) : Prop := {
  consistent_pc : compatible (producer m) (consumer m) = true;
  consistent_mtx : mtx (shared m) = mtx_of (producer m) (consumer m);
  consistent_flag : set_called (shared m) = fired (producer m);
  consistent_queue : cond_var (shared m) = queue_of (producer m) (consumer m);
  consistent_value : value (shared m) = value_of write (producer m);
  consistent_entry : forall c, producer m = PEmplace c -> write = Some c;
  consistent_result :
    forall o, consumer m = CReturned o ->
              o = get_value (with_value fresh_state (stored write))
}.

(** How many steps a thread has left at most. *)
Definition producer_rank (p : producer_pc) : nat :=
  match p with
  | PEmplace _ => 5
  | PLock => 4
  | PSetCalled => 3
  | PNotify => 2
  | PUnlock => 1
  | PDone => 0
  end.

Definition consumer_rank (c : consumer_pc) : nat :=
  match c with
  | CFastCheck => 7
  | CLock => 6
  | CRecheck => 5
  | CCondWait => 4
  | CParked => 3
  | CUnlock => 2
  | CGetValue => 1
  | CReturned _ => 0
  end.

Definition rank (m : machine) : nat :=
  producer_rank (producer m) + consumer_rank (consumer m).

(** *** The critical sections *)

(** The completion function is between taking and releasing [mtx] in
    [signal_set_called]. *)
Definition producer_holds (pc : producer_pc) : bool :=
  match pc with
  | PSetCalled | PNotify | PUnlock => true
  | _ => false
  end.

(** The caller is between taking [mtx] in [wait] and releasing it, be it
    to park or at the end of the block. *)
Definition consumer_holds (pc : consumer_pc) : bool :=
  match pc with
  | CRecheck | CCondWait | CUnlock => true
  | _ => false
  end.

(** The caller has not gone beyond the first look at the flag in [wait],
    or has left [wait] by it. *)
Definition on_fast_path (pc : consumer_pc) : bool :=
  match pc with
  | CFastCheck | CGetValue | CReturned _ => true
  | _ => false
  end.

(** ** Sample senders *)

Definition int : ctype := Named "int".
Definition std_string : ctype := Named "std::string".
Definition std_runtime_error : ctype := Named "std::runtime_error".
Definition long : ctype := Named "long".

(** A program in which an [int] converts to a [long], the way the
    integral conversions of the language have it, and nothing else
    converts. *)
Definition int_to_long : conversions :=
  {| implicit := fun target v =>
       if ctype_eqb target long && ctype_eqb (decay (vtype v)) int
       then Some (vdata v) else None;
     overload := fun alts v =>
       if ctype_eqb (decay (vtype v)) int
       then index_of ctype_eqb long alts else None |}.

(** A sender type without a completion scheduler. *)
Definition plain_type (values : list (list ctype)) (errors : list ctype)
  : sender_type :=
  {| is_sender_v := true;
     value_signatures := values;
     error_signatures := errors;
     sends_stopped := true;
     completion_scheduler := None |}.

Definition plain_sender (values : list (list ctype)) (errors : list ctype)
  (c : completion) : sender :=
  {| stype := plain_type values errors; completes := c |}.

(** A scheduler whose own blocking wait answers 1 whatever the sender
    does, so that a call that went through it is recognised. *)
Definition instrumented_scheduler : scheduler :=
  {| scheduler_name := "instrumented";
     scheduler_sync_wait :=
       Some (fun _ => Returned (Some [CValue int (DInt 1)])) |}.

Definition scheduled_sender (c : completion) : sender :=
  {| stype := {| is_sender_v := true;
                 value_signatures := [[int]];
                 error_signatures := [];
                 sends_stopped := true;
                 completion_scheduler := Some instrumented_scheduler |};
     completes := c |}.

(** * Properties *)

(** ** Types *)

Lemma ctype_eqb_eq (a b : ctype) : ctype_eqb a b = true <-> a = b.
Proof.
  revert b.
  induction a; destruct b; simpl; split; intro H;
    try discriminate; try reflexivity.
  all: try (apply String.eqb_eq in H; congruence).
  all: try (injection H as ->; apply String.eqb_refl).
  all: try (apply IHa in H; congruence).
  all: try (injection H as ->; now apply IHa).
  - apply andb_true_iff in H as [H1 H2].
    apply IHa in H1. apply Nat.eqb_eq in H2. congruence.
  - injection H as -> ->. apply andb_true_iff. split.
    + now apply IHa.
    + apply Nat.eqb_refl.
Qed.

Lemma ctype_eqb_refl (a : ctype) : ctype_eqb a a = true.
Proof. now apply ctype_eqb_eq. Qed.

Lemma ctype_eqb_neq (a b : ctype) : ctype_eqb a b = false <-> a <> b.
Proof.
  destruct (ctype_eqb a b) eqn:E; split; intro H; try congruence.
  - apply ctype_eqb_eq in E. contradiction.
  - intro Hab. apply ctype_eqb_eq in Hab. congruence.
Qed.

Lemma tuple_eqb_eq (a b : list ctype) : tuple_eqb a b = true <-> a = b.
Proof.
  revert b. induction a as [|x xs IH]; destruct b as [|y ys]; simpl;
    split; intro H; try discriminate; try reflexivity.
  - apply andb_true_iff in H as [H1 H2].
    apply ctype_eqb_eq in H1. apply IH in H2. congruence.
  - injection H as -> ->. apply andb_true_iff. split.
    + apply ctype_eqb_refl.
    + now apply IH.
Qed.

Lemma remove_cv_unqualified (t : ctype) : is_cv_qualified (remove_cv t) = false.
Proof. induction t; simpl; auto. Qed.

Lemma remove_cv_idempotent (t : ctype) : remove_cv (remove_cv t) = remove_cv t.
Proof. induction t; simpl; auto. Qed.

Lemma remove_cv_object (t : ctype) :
  object_type t = true -> object_type (remove_cv t) = true.
Proof. induction t; simpl; auto. Qed.

Lemma object_type_not_reference (t : ctype) :
  object_type t = true -> is_reference t = false.
Proof. destruct t; simpl; auto; discriminate. Qed.

Lemma remove_reference_object (t : ctype) :
  well_formed t = true -> object_type (remove_reference t) = true.
Proof. destruct t; simpl; auto. Qed.

(** A decayed type is an object type without top-level qualifiers: what
    is stored is owned, never a reference. *)
Lemma decay_owned (t : ctype) :
  well_formed t = true ->
  is_reference (decay t) = false /\
  is_cv_qualified (decay t) = false /\
  object_type (decay t) = true.
Proof.
  intro W. apply remove_reference_object in W. unfold decay.
  destruct (remove_reference t) eqn:E; simpl in *;
    repeat split; auto using remove_cv_unqualified, remove_cv_object.
  - apply object_type_not_reference. now apply remove_cv_object.
  - apply object_type_not_reference. now apply remove_cv_object.
Qed.

Lemma remove_cv_decay (t : ctype) : remove_cv (decay t) = decay t.
Proof.
  unfold decay. destruct (remove_reference t); simpl; auto;
    apply remove_cv_idempotent.
Qed.

(** ** Packs *)

Section UniqueFacts.
Variable A : Type.
Variable eqb : A -> A -> bool.
Hypothesis eqb_eq : forall x y, eqb x y = true <-> x = y.

Lemma contains_In (x : A) (l : list A) : contains eqb x l = true <-> In x l.
Proof.
  unfold contains. rewrite existsb_exists. split.
  - intros (y & Hy & E). apply eqb_eq in E. now subst.
  - intro H. exists x. split; [assumption | now apply eqb_eq].
Qed.

Lemma contains_not_In (x : A) (l : list A) :
  contains eqb x l = false <-> ~ In x l.
Proof.
  rewrite <- contains_In. destruct (contains eqb x l); split; congruence.
Qed.

Lemma unique_helper_In (rest seen : list A) (x : A) :
  In x (unique_helper eqb seen rest) <-> In x seen \/ In x rest.
Proof.
  revert seen. induction rest as [|y ys IH]; intro seen; simpl.
  - tauto.
  - destruct (contains eqb y seen) eqn:C; rewrite IH.
    + apply contains_In in C. split; [tauto|].
      intros [H | [<- | H]]; tauto.
    + rewrite in_app_iff. simpl. tauto.
Qed.

Lemma unique_helper_NoDup (rest seen : list A) :
  NoDup seen -> NoDup (unique_helper eqb seen rest).
Proof.
  revert seen. induction rest as [|y ys IH]; intros seen H; simpl.
  - assumption.
  - destruct (contains eqb y seen) eqn:C.
    + now apply IH.
    + apply IH. apply contains_not_In in C.
      apply NoDup_app; [assumption | constructor; [easy | constructor] |].
      intros a Ha [<- | []]. contradiction.
Qed.

Lemma unique_helper_prefix (rest seen : list A) :
  exists more, unique_helper eqb seen rest = seen ++ more.
Proof.
  revert seen. induction rest as [|y ys IH]; intro seen; simpl.
  - exists []. now rewrite app_nil_r.
  - destruct (contains eqb y seen).
    + apply IH.
    + destruct (IH (seen ++ [y])) as [more ->].
      exists (y :: more). now rewrite <- app_assoc.
Qed.

Lemma unique_t_In (l : list A) (x : A) : In x (unique_t eqb l) <-> In x l.
Proof. unfold unique_t. rewrite unique_helper_In. simpl. tauto. Qed.

Lemma unique_t_NoDup (l : list A) : NoDup (unique_t eqb l).
Proof. apply unique_helper_NoDup. constructor. Qed.

Lemma unique_t_head (x : A) (l : list A) :
  exists more, unique_t eqb (x :: l) = x :: more.
Proof.
  unfold unique_t. simpl.
  destruct (unique_helper_prefix l [x]) as [more ->]. now exists more.
Qed.

Lemma index_of_Some (x : A) (l : list A) (i : nat) :
  index_of eqb x l = Some i -> nth_error l i = Some x.
Proof.
  revert i. induction l as [|y ys IH]; intros i; simpl.
  - discriminate.
  - destruct (eqb x y) eqn:E.
    + intros [= <-]. apply eqb_eq in E. now subst.
    + destruct (index_of eqb x ys); simpl; [|discriminate].
      intros [= <-]. now apply IH.
Qed.

Lemma index_of_In (x : A) (l : list A) :
  In x l -> exists i, index_of eqb x l = Some i.
Proof.
  induction l as [|y ys IH]; simpl; [easy|].
  intros H. destruct (eqb x y) eqn:E; [now exists 0|].
  destruct H as [-> | H].
  - assert (eqb x x = true) by now apply eqb_eq. congruence.
  - destruct (IH H) as [i ->]. now exists (S i).
Qed.

Lemma index_of_None (x : A) (l : list A) :
  ~ In x l -> index_of eqb x l = None.
Proof.
  induction l as [|y ys IH]; simpl; [easy|].
  intros H. destruct (eqb x y) eqn:E.
  - apply eqb_eq in E. subst. tauto.
  - rewrite IH; tauto.
Qed.

Lemma single_variant_t_Some (l : list A) (x : A) :
  single_variant_t l = Some x <-> l = [x].
Proof.
  destruct l as [|y [|z zs]]; simpl; split; intro H;
    try discriminate; congruence.
Qed.
End UniqueFacts.

(** ** Type deduction *)

Lemma single_result_type_formed (s : sender_type) (rt : list ctype) :
  single_result_type s = Accepted rt <->
  exists t, predecessor_value_types s = [t] /\ rt = make_decayed_pack_t t.
Proof.
  unfold single_result_type.
  destruct (single_variant_t (predecessor_value_types s)) as [t|] eqn:E;
    simpl; split.
  - intros [= <-]. exists t. split; [|reflexivity].
    now apply single_variant_t_Some.
  - intros (t' & H & ->). apply single_variant_t_Some in E. congruence.
  - discriminate.
  - intros (t' & H & _). apply single_variant_t_Some in H. congruence.
Qed.

(** When the result type is formed, every declared value signature has
    the one shape it was formed from, and there is one. *)
Lemma single_result_type_one_shape (s : sender_type) (rt : list ctype) :
  single_result_type s = Accepted rt ->
  exists t, rt = make_decayed_pack_t t /\
            In t (value_signatures s) /\
            forall x, In x (value_signatures s) -> x = t.
Proof.
  intro H. apply single_result_type_formed in H as (t & H & ->).
  exists t. split; [reflexivity|].
  unfold predecessor_value_types in H.
  assert (M : forall x, In x (value_signatures s) <-> In x [t]).
  { intro x. rewrite <- H. symmetry. apply unique_t_In, tuple_eqb_eq. }
  split.
  - apply M. now left.
  - intros x Hx. apply M in Hx. destruct Hx as [<- | []]. reflexivity.
Qed.

Lemma rejected_without_result_type (cxx : conversions) (s : sender) :
  single_result_type (stype s) = Rejected ->
  tag_fallback_invoke cxx s = Rejected /\ boot cxx s = Rejected.
Proof.
  intro H. unfold tag_fallback_invoke, boot. now rewrite H.
Qed.

(** Without a scheduler that brings its own blocking wait, the call is
    the generic one. *)
Lemma sync_wait_without_override (cxx : conversions) (s : sender) :
  is_completion_scheduler_tag_invocable_v (stype s) = false ->
  sync_wait cxx s =
  if is_sender_v (stype s)
  then r <- tag_fallback_invoke cxx s ;;
       Accepted {| path := GenericFallback; result := r |}
  else Rejected.
Proof.
  intro H. unfold sync_wait, tag_override_viable, tag_fallback_viable.
  rewrite H, andb_false_r. reflexivity.
Qed.

(** C5.  A sender that declares two different value signatures is turned
    down when the generic call is compiled: no result type is formed, the
    call is rejected, no thread of it ever exists, and [sync_wait] on such
    a sender is rejected whenever it is the generic call.  None of the
    shapes is picked. *)
Theorem several_value_shapes_rejected
  (cxx : conversions) (s : sender) (a b : list ctype) :
  In a (value_signatures (stype s)) ->
  In b (value_signatures (stype s)) ->
  a <> b ->
  single_result_type (stype s) = Rejected /\
  tag_fallback_invoke cxx s = Rejected /\
  boot cxx s = Rejected /\
  (is_completion_scheduler_tag_invocable_v (stype s) = false ->
   sync_wait cxx s = Rejected) /\
  (forall rt, single_result_type (stype s) <> Accepted rt).
Proof.
  intros Ha Hb Hab.
  assert (R : forall rt, single_result_type (stype s) <> Accepted rt).
  { intros rt H. apply single_result_type_one_shape in H as (t & _ & _ & U).
    apply Hab. rewrite (U a Ha), (U b Hb). reflexivity. }
  assert (E : single_result_type (stype s) = Rejected).
  { destruct (single_result_type (stype s)) as [|rt] eqn:E; [reflexivity|].
    now destruct (R rt). }
  destruct (rejected_without_result_type cxx s E) as [E1 E2].
  repeat split; try assumption.
  intro Hn. rewrite (sync_wait_without_override cxx s Hn), E1.
  now destruct (is_sender_v (stype s)).
Qed.

Lemma several_value_shapes_rejected_witness :
  let s := plain_sender [[int]; [std_string]] []
             (CompleteValue [CValue int (DInt 42)]) in
  single_result_type (stype s) = Rejected /\
  tag_fallback_invoke no_conversions s = Rejected /\
  boot no_conversions s = Rejected /\
  (is_completion_scheduler_tag_invocable_v (stype s) = false ->
   sync_wait no_conversions s = Rejected) /\
  (forall rt, single_result_type (stype s) <> Accepted rt).
Proof.
  apply (@several_value_shapes_rejected no_conversions
           (plain_sender [[int]; [std_string]] []
              (CompleteValue [CValue int (DInt 42)]))
           [int] [std_string]).
  - simpl. left. reflexivity.
  - simpl. right. left. reflexivity.
  - discriminate.
Defined.

(** A shape declared twice is still one shape, and no shape at all is
    none. *)
Example one_shape_twice :
  single_result_type (plain_type [[LRef (Const int)]; [LRef (Const int)]] [])
  = Accepted [int].
Proof. reflexivity. Qed.

Example no_value_shape :
  single_result_type (plain_type [] []) = Rejected.
Proof. reflexivity. Qed.

Lemma error_type_head (s : sender_type) :
  exists more, error_type s = exception_ptr :: more.
Proof.
  unfold error_type, prepend_t, predecessor_error_types.
  apply unique_t_head.
Qed.

Lemma error_type_NoDup (s : sender_type) : NoDup (error_type s).
Proof. apply unique_t_NoDup, ctype_eqb_eq. Qed.

Lemma error_type_members (s : sender_type) (t : ctype) :
  In t (error_type s) <-> t = exception_ptr \/ In t (error_signatures s).
Proof.
  unfold error_type, prepend_t, predecessor_error_types.
  rewrite (unique_t_In ctype_eqb ctype_eqb_eq). simpl.
  split; intros [H | H]; auto.
Qed.

Lemma error_type_slot (s : sender_type) (t : ctype) :
  In t (error_type s) ->
  exists i, index_of ctype_eqb t (error_type s) = Some i /\
            nth_error (error_type s) i = Some t.
Proof.
  intro H.
  destruct (index_of_In ctype_eqb ctype_eqb_eq _ _ H) as [i Hi].
  exists i. split; [assumption|].
  now apply (index_of_Some ctype_eqb ctype_eqb_eq).
Qed.

(** C6.  The alternatives of [error_type] start with
    [std::exception_ptr], hold no type twice, and are [std::exception_ptr]
    together with the declared error types; each of them has a slot, the
    first one being that of [std::exception_ptr]. *)
Theorem error_type_alternatives (s : sender_type) :
  hd_error (error_type s) = Some exception_ptr /\
  NoDup (error_type s) /\
  (forall t, In t (error_type s) <->
             t = exception_ptr \/ In t (error_signatures s)) /\
  index_of ctype_eqb exception_ptr (error_type s) = Some 0 /\
  (forall t, In t (error_signatures s) ->
             exists i, index_of ctype_eqb t (error_type s) = Some i /\
                       nth_error (error_type s) i = Some t).
Proof.
  destruct (error_type_head s) as [more E].
  split; [|split; [|split; [|split]]].
  - now rewrite E.
  - apply error_type_NoDup.
  - apply error_type_members.
  - rewrite E. reflexivity.
  - intros t Ht. apply error_type_slot, error_type_members. now right.
Qed.

Example error_type_sample :
  error_type (plain_type [[int]] [int; exception_ptr; std_string; int])
  = [exception_ptr; int; std_string].
Proof. reflexivity. Qed.

(** ** The two threads *)

Section Runs.
Variable write : option cell.

Lemma started_consistent : consistent write (started write).
Proof.
  destruct write; constructor; simpl; auto; try discriminate; congruence.
Qed.

Lemma step_consistent (t : thread) (m m' : machine) :
  consistent write m -> step t m = Some m' -> consistent write m'.
Proof.
  intros [Hpc Hm Hf Hq Hv He Hr] Hstep.
  destruct m as [[q mt f v] p c]. simpl in *. subst q mt f v.
  destruct t, p, c; simpl in Hpc, Hstep; try discriminate;
    injection Hstep as <-; constructor; simpl;
    try reflexivity; try discriminate; try congruence;
    try (intros ? [= <-]); try (erewrite He; reflexivity); auto.
Qed.

Lemma run_consistent (schedule : list thread) (m m' : machine) :
  consistent write m -> run schedule m = Some m' -> consistent write m'.
Proof.
  revert m. induction schedule as [|t ts IH]; intros m Hm; simpl.
  - now intros [= <-].
  - destruct (step t m) as [m1|] eqn:E; [|discriminate].
    apply IH. now apply (step_consistent t Hm).
Qed.
End Runs.

Lemma step_rank (t : thread) (m m' : machine) :
  step t m = Some m' -> rank m' < rank m.
Proof.
  destruct m as [st p c]. unfold rank, step. simpl.
  destruct t; [destruct p | destruct c]; simpl;
    try discriminate;
    try (intros [= <-]; simpl; lia).
  - destruct (lock Producer st); simpl; [|discriminate].
    intros [= <-]; simpl; lia.
  - intros [= <-]; simpl. destruct (set_called st); simpl; lia.
  - destruct (lock Consumer st); simpl; [|discriminate].
    intros [= <-]; simpl; lia.
  - intros [= <-]; simpl. destruct (set_called st); simpl; lia.
  - destruct (parked Consumer st); [discriminate|].
    destruct (lock Consumer st); simpl; [|discriminate].
    intros [= <-]; simpl; lia.
Qed.

Lemma run_rank (schedule : list thread) (m m' : machine) :
  run schedule m = Some m' -> length schedule + rank m' <= rank m.
Proof.
  revert m. induction schedule as [|t ts IH]; intros m; simpl.
  - intros [= <-]. lia.
  - destruct (step t m) as [m1|] eqn:E; [|discriminate].
    intro H. apply IH in H. apply step_rank in E. lia.
Qed.

Lemma run_cons (t : thread) (ts : list thread) (m m1 : machine) :
  step t m = Some m1 -> run (t :: ts) m = run ts m1.
Proof. intro E. cbn [run]. now rewrite E. Qed.

Lemma run_app (s1 s2 : list thread) (m m1 m2 : machine) :
  run s1 m = Some m1 -> run s2 m1 = Some m2 -> run (s1 ++ s2) m = Some m2.
Proof.
  revert m. induction s1 as [|t ts IH]; intros m; simpl.
  - now intros [= <-].
  - destruct (step t m) as [m'|]; [|discriminate]. apply IH.
Qed.

(** Whatever state a machine is in, its threads can be run until neither
    can move. *)
Lemma run_to_the_end (m : machine) :
  exists rest m', run rest m = Some m' /\ stuck m'.
Proof.
  remember (rank m) as n eqn:E. revert m E.
  induction n as [n IH] using lt_wf_ind. intros m ->.
  destruct (step Producer m) as [m1|] eqn:EP.
  - destruct (IH (rank m1) (step_rank _ _ EP) m1 eq_refl)
      as (rest & m' & Hrun & Hstuck).
    exists (Producer :: rest), m'. now rewrite (@run_cons _ rest _ _ EP).
  - destruct (step Consumer m) as [m1|] eqn:EC.
    + destruct (IH (rank m1) (step_rank _ _ EC) m1 eq_refl)
        as (rest & m' & Hrun & Hstuck).
      exists (Consumer :: rest), m'. now rewrite (@run_cons _ rest _ _ EC).
    + exists [], m. simpl. now split.
Qed.

(** When neither thread can move, the completion function is through and
    the caller has returned: nobody is left parked or spinning. *)
Lemma stuck_returned (write : option cell) (m : machine) :
  consistent write m -> stuck m ->
  producer m = PDone /\
  consumer m = CReturned (get_value (with_value fresh_state (stored write))).
Proof.
  intros [Hpc Hm Hf Hq Hv He Hr] [HP HC].
  destruct m as [[q mt f v] p c]. simpl in *. subst q mt f v.
  destruct p, c; simpl in Hpc, HP, HC; try discriminate.
  split; [reflexivity|]. f_equal. now apply Hr.
Qed.

(** C4.  From the moment the operation is started, in whatever order the
    thread of the completion function and the calling thread take their
    steps: the caller is not let through [wait] unless the completion
    function has set the flag; while the caller is parked the call of
    [notify_one] is still to come; the run goes on for at most twelve
    steps; it can always be taken to a point where neither thread can
    move; and at such a point the completion function is through and the
    caller has returned from [wait] with the outcome, never left
    parked. *)
Theorem no_lost_wakeup
  (write : option cell) (schedule : list thread) (m : machine) :
  run schedule (started write) = Some m ->
  (released (consumer m) = true ->
   fired (producer m) = true /\ set_called (shared m) = true) /\
  (parked Consumer (shared m) = true ->
   notification_ahead (producer m) = true) /\
  length schedule <= 12 /\
  (exists rest m', run rest m = Some m' /\ stuck m') /\
  (forall rest m',
     run rest m = Some m' -> stuck m' ->
     producer m' = PDone /\ released (consumer m') = true /\
     consumer m' =
       CReturned (get_value (with_value fresh_state (stored write)))).
Proof.
  intro Hrun.
  assert (Hc : consistent write m)
    by exact (run_consistent schedule (started_consistent write) Hrun).
  split; [|split; [|split; [|split]]].
  - intro Hrel. destruct Hc as [Hpc _ Hf _ _ _ _].
    rewrite Hf.
    destruct (consumer m); simpl in Hrel, Hpc; try discriminate;
      destruct (producer m); simpl in Hpc |- *; try discriminate;
      now split.
  - destruct Hc as [_ _ _ Hq _ _ _]. unfold parked. rewrite Hq.
    destruct (consumer m), (producer m); simpl; congruence.
  - apply run_rank in Hrun. unfold rank at 2 in Hrun.
    destruct write; simpl in Hrun; lia.
  - apply run_to_the_end.
  - intros rest m' Hrest Hstuck.
    destruct (stuck_returned (run_consistent rest Hc Hrest) Hstuck)
      as [HP HC].
    rewrite HC. now repeat split.
Qed.

(** The caller parks before the completion function has run, and is woken
    by it. *)
Lemma no_lost_wakeup_witness :
  let schedule :=
    [Consumer; Consumer; Consumer; Consumer;
     Producer; Producer; Producer; Producer; Producer;
     Consumer; Consumer; Consumer] in
  let write := Some (ResultAlt [CValue int (DInt 42)]) in
  exists m,
    run schedule (started write) = Some m /\
    consumer m = CReturned (Returned (Some [CValue int (DInt 42)])) /\
    ((released (consumer m) = true ->
      fired (producer m) = true /\ set_called (shared m) = true) /\
     (parked Consumer (shared m) = true ->
      notification_ahead (producer m) = true) /\
     length schedule <= 12 /\
     (exists rest m', run rest m = Some m' /\ stuck m') /\
     (forall rest m',
        run rest m = Some m' -> stuck m' ->
        producer m' = PDone /\ released (consumer m') = true /\
        consumer m' =
          CReturned (get_value (with_value fresh_state (stored write))))).
Proof.
  simpl.
  eexists. split; [reflexivity|].
  split; [reflexivity|].
  apply (@no_lost_wakeup
           (Some (ResultAlt [CValue int (DInt 42)]))
           [Consumer; Consumer; Consumer; Consumer;
            Producer; Producer; Producer; Producer; Producer;
            Consumer; Consumer; Consumer]).
  reflexivity.
Defined.

(** The caller finds the flag set by the time it looks, and takes no
    lock. *)
Example completed_before_wait :
  option_map consumer
    (run [Producer; Producer; Producer; Producer; Producer;
          Consumer; Consumer]
       (started (Some (ResultAlt [CValue int (DInt 42)]))))
  = Some (CReturned (Returned (Some [CValue int (DInt 42)]))).
Proof. reflexivity. Qed.

(** The completion function gets the lock between the two looks of the
    caller at the flag: the second look, under the lock, sees it set. *)
Example completed_between_checks :
  option_map consumer
    (run [Consumer; Producer; Producer; Producer; Producer; Producer;
          Consumer; Consumer; Consumer; Consumer]
       (started (Some (ResultAlt [CValue int (DInt 42)]))))
  = Some (CReturned (Returned (Some [CValue int (DInt 42)]))).
Proof. reflexivity. Qed.

(** While the caller holds the lock the completion function cannot take
    it. *)
Example producer_waits_for_lock :
  run [Consumer; Consumer; Producer; Producer]
    (started (Some (ResultAlt [CValue int (DInt 42)]))) = None.
Proof. reflexivity. Qed.

(** [wait] looks at the flag once after it has parked, not in a loop: that
    the caller is not let through early rests on [cond_var.wait] returning
    only when notified.  With a wakeup out of nowhere the caller would be
    through before the completion function has run, and would return the
    disengaged optional of a stopped sender. *)
Example wait_relies_on_notification :
  let write := Some (ResultAlt [CValue int (DInt 42)]) in
  exists m1 m2 m3,
    run [Consumer; Consumer; Consumer; Consumer] (started write) = Some m1 /\
    spurious_wakeup m1 = Some m2 /\
    released (consumer m2) = true /\ fired (producer m2) = false /\
    run [Consumer; Consumer] m2 = Some m3 /\
    consumer m3 = CReturned (Returned None).
Proof.
  simpl. do 3 eexists.
  split; [reflexivity|]. split; [reflexivity|].
  split; [reflexivity|]. split; [reflexivity|].
  split; reflexivity.
Qed.

(** [signal_set_called] is the four steps of the completion function from
    the lock on. *)
Lemma signal_set_called_steps (st : shared_state) (c : consumer_pc) :
  run [Producer; Producer; Producer; Producer]
    {| shared := st; producer := PLock; consumer := c |}
  = option_map
      (fun st' => {| shared := st'; producer := PDone; consumer := c |})
      (signal_set_called st).
Proof.
  unfold signal_set_called. cbn.
  destruct (lock Producer st); reflexivity.
Qed.

(** [wait] is the steps of a caller up to [get_value] while the other
    thread does not move: one when the flag is set, none that ends
    otherwise. *)
Lemma wait_steps (st st' : shared_state) (p : producer_pc) :
  set_called st = true ->
  wait st = Some st' ->
  run [Consumer]
    {| shared := st; producer := p; consumer := CFastCheck |}
  = Some {| shared := st'; producer := p; consumer := CGetValue |}.
Proof.
  unfold wait. intros E. rewrite E. simpl.
  intros [= <-]. cbn. rewrite E. reflexivity.
Qed.

Lemma wait_unset (st : shared_state) :
  set_called st = false -> wait st = None.
Proof.
  unfold wait, lock. intros E. rewrite E. simpl.
  destruct (mtx st); [reflexivity|]. simpl. now rewrite E.
Qed.

(** ** The receiver and the generic call *)

Section Generic.
Variable cxx : conversions.

Lemma element_construct_exact (u : cvalue) :
  element_construct cxx (decay (vtype u)) u = Accepted (decay_copy u).
Proof. unfold element_construct. now rewrite ctype_eqb_refl. Qed.

Lemma tuple_construct_exact (us : list cvalue) :
  tuple_construct cxx (map (fun v => decay (vtype v)) us) us
  = Accepted (map decay_copy us).
Proof.
  induction us as [|u us IH]; simpl; [reflexivity|].
  now rewrite element_construct_exact, IH.
Qed.

Lemma variant_construct_exact (alts : list ctype) (e : cvalue) :
  In (decay (vtype e)) alts ->
  exists i,
    index_of ctype_eqb (decay (vtype e)) alts = Some i /\
    nth_error alts i = Some (decay (vtype e)) /\
    variant_construct cxx alts e = Accepted (i, decay_copy e).
Proof.
  intro H.
  destruct (index_of_In ctype_eqb ctype_eqb_eq _ _ H) as [i Hi].
  exists i. split; [assumption|]. split.
  - now apply (index_of_Some ctype_eqb ctype_eqb_eq).
  - unfold variant_construct. now rewrite Hi.
Qed.

(** The operation that calls a completion function leaves the state
    with the flag set and with what that function stores. *)
Lemma start_stores (rt alts : list ctype) (c : completion) :
  start cxx rt alts c fresh_state =
  (w <- completion_write cxx rt alts c ;;
   Accepted (signal_set_called (with_value fresh_state (stored w)))).
Proof.
  destruct c as [us | e |]; simpl; unfold set_value, set_error.
  - now destruct (emplace_result cxx rt us).
  - now destruct (emplace_error cxx alts e).
  - reflexivity.
Qed.

Lemma generic_call_resolves (s : sender) :
  tag_fallback_invoke cxx s =
  (rt <- single_result_type (stype s) ;;
   w <- completion_write cxx rt (error_type (stype s)) (completes s) ;;
   Accepted (get_value (with_value fresh_state (stored w)))).
Proof.
  unfold tag_fallback_invoke.
  destruct (single_result_type (stype s)) as [|rt]; simpl; [reflexivity|].
  rewrite start_stores.
  now destruct (completion_write cxx rt (error_type (stype s))
                  (completes s)) as [|[c|]].
Qed.


(** Whatever the order in which the two threads of the call take their
    steps, the run comes to an end, and there the caller has returned what
    the call returns when the operation completes before [wait] is
    entered. *)
Lemma generic_call_runs (s : sender) (o : outcome) :
  tag_fallback_invoke cxx s = Accepted o ->
  exists m0, boot cxx s = Accepted m0 /\ every_run_returns m0 o.
Proof.
  rewrite generic_call_resolves. unfold boot.
  destruct (single_result_type (stype s)) as [|rt]; simpl; [discriminate|].
  destruct (completion_write cxx rt (error_type (stype s)) (completes s))
    as [|w]; simpl; [discriminate|].
  intros [= <-]. eexists. split; [reflexivity|].
  intros schedule m Hrun. split.
  - apply run_to_the_end.
  - intro Hstuck.
    apply (stuck_returned
             (run_consistent schedule (started_consistent w) Hrun) Hstuck).
Qed.

Lemma run_value_monostate
  (schedule : list thread) (m : machine) :
  run schedule (started None) = Some m -> value (shared m) = Monostate.
Proof.
  intro H.
  destruct (run_consistent schedule (started_consistent None) H)
    as [_ _ _ _ Hv _ _].
  rewrite Hv. now destruct (producer m).
Qed.
End Generic.

Lemma decay_copy_owned (vs : list cvalue) :
  Forall (fun v => well_formed (vtype v) = true) vs ->
  Forall (fun v => is_reference (vtype v) = false /\
                   is_cv_qualified (vtype v) = false)
         (map decay_copy vs).
Proof.
  induction 1 as [|v vs Hv _ IH]; simpl; constructor; [|assumption].
  destruct (decay_owned _ Hv) as (H1 & H2 & _). now split.
Qed.

(** C1.  A sender whose value types were deduced and that completes with
    values of these types makes the generic call return an engaged
    optional holding the decayed copies of the values, in the order given;
    every run of the two threads of the call comes to an end and has
    returned just that there; and the types of what is returned are
    neither references nor cv-qualified. *)
Theorem value_completion_returned
  (cxx : conversions) (s : sender) (rt : list ctype) (vs : list cvalue) :
  completes s = CompleteValue vs ->
  single_result_type (stype s) = Accepted rt ->
  map (fun v => decay (vtype v)) vs = rt ->
  tag_fallback_invoke cxx s = Accepted (Returned (Some (map decay_copy vs))) /\
  (exists m0,
     boot cxx s = Accepted m0 /\
     every_run_returns m0 (Returned (Some (map decay_copy vs)))) /\
  (Forall (fun v => well_formed (vtype v) = true) vs ->
   Forall (fun v => is_reference (vtype v) = false /\
                    is_cv_qualified (vtype v) = false)
          (map decay_copy vs)).
Proof.
  intros Hc Hrt Hvs.
  assert (E : tag_fallback_invoke cxx s
              = Accepted (Returned (Some (map decay_copy vs)))).
  { rewrite generic_call_resolves, Hrt, Hc. simpl.
    unfold emplace_result. rewrite <- Hvs, tuple_construct_exact.
    reflexivity. }
  split; [exact E|]. split.
  - now apply generic_call_runs.
  - apply decay_copy_owned.
Qed.

(** The sender declares [set_value_t(int, const std::string&)] and
    completes with [(1, "a")]. *)
Lemma value_completion_returned_witness :
  let vs := [CValue int (DInt 1); CValue (LRef (Const std_string)) (DStr "a")] in
  let s := plain_sender [[int; LRef (Const std_string)]] [] (CompleteValue vs) in
  tag_fallback_invoke no_conversions s
  = Accepted (Returned (Some [CValue int (DInt 1);
                              CValue std_string (DStr "a")])) /\
  (exists m0,
     boot no_conversions s = Accepted m0 /\
     every_run_returns m0
       (Returned (Some [CValue int (DInt 1);
                        CValue std_string (DStr "a")]))) /\
  (Forall (fun v => well_formed (vtype v) = true) vs ->
   Forall (fun v => is_reference (vtype v) = false /\
                    is_cv_qualified (vtype v) = false)
          [CValue int (DInt 1); CValue std_string (DStr "a")]).
Proof.
  apply (@value_completion_returned no_conversions
           (plain_sender [[int; LRef (Const std_string)]] []
              (CompleteValue
                 [CValue int (DInt 1);
                  CValue (LRef (Const std_string)) (DStr "a")]))
           [int; std_string]
           [CValue int (DInt 1);
            CValue (LRef (Const std_string)) (DStr "a")]);
    reflexivity.
Defined.

Example value_42 :
  tag_fallback_invoke no_conversions
    (plain_sender [[int]] [] (CompleteValue [CValue (RRef int) (DInt 42)]))
  = Accepted (Returned (Some [CValue int (DInt 42)])).
Proof. reflexivity. Qed.

Lemma declared_error_alternative (s : sender_type) (t : ctype) :
  t = exception_ptr \/ In t (error_signatures s) -> In t (error_type s).
Proof.
  apply error_type_members.
Qed.

Lemma visitor_on_copy (e : cvalue) :
  sync_wait_error_visitor (decay_copy e) =
  if ctype_eqb (decay (vtype e)) exception_ptr
  then rethrow_exception (vdata e)
  else Raised (decay (vtype e)) (vdata e).
Proof.
  unfold sync_wait_error_visitor, decay_copy. simpl.
  now rewrite remove_cv_decay.
Qed.

Lemma visitor_never_returns (e : cvalue) (r : option (list cvalue)) :
  sync_wait_error_visitor e <> Returned r.
Proof.
  unfold sync_wait_error_visitor, rethrow_exception.
  destruct (ctype_eqb (remove_cv (vtype e)) exception_ptr);
    [destruct (vdata e)|]; discriminate.
Qed.

(** An error completion never comes back as a value, whatever was
    stored. *)
Lemma error_generic_call_not_returned
  (cxx : conversions) (s : sender) (e : cvalue) (r : option (list cvalue)) :
  completes s = CompleteError e ->
  tag_fallback_invoke cxx s <> Accepted (Returned r).
Proof.
  intro Hc. rewrite generic_call_resolves, Hc.
  destruct (single_result_type (stype s)) as [|rt]; simpl; [discriminate|].
  unfold emplace_error.
  destruct (variant_construct cxx (error_type (stype s)) e) as [|[i v]];
    simpl; [discriminate|].
  intros [= H]. now apply visitor_never_returns in H.
Qed.

Lemma error_generic_call
  (cxx : conversions) (s : sender) (rt : list ctype) (e : cvalue) :
  completes s = CompleteError e ->
  single_result_type (stype s) = Accepted rt ->
  In (decay (vtype e)) (error_type (stype s)) ->
  tag_fallback_invoke cxx s = Accepted (sync_wait_error_visitor (decay_copy e)).
Proof.
  intros Hc Hrt Hin.
  rewrite generic_call_resolves, Hrt, Hc. simpl. unfold emplace_error.
  destruct (variant_construct_exact cxx _ _ Hin) as (i & _ & _ & ->).
  reflexivity.
Qed.

(** C2.  A sender whose types were deduced and that completes with an
    error whose type is [std::exception_ptr] or one of its declared error
    types makes the generic call raise: the captured exception itself
    when the error is an exception pointer that holds one, the error value
    with its own type otherwise.  The call does not return a value, and
    every run of its two threads comes to an end, where it has ended in
    that same way. *)
Theorem error_completion_raised
  (cxx : conversions) (s : sender) (rt : list ctype) (e : cvalue) :
  completes s = CompleteError e ->
  single_result_type (stype s) = Accepted rt ->
  decay (vtype e) = exception_ptr \/
    In (decay (vtype e)) (error_signatures (stype s)) ->
  (forall ty content,
     decay (vtype e) = exception_ptr -> vdata e = DExn ty content ->
     tag_fallback_invoke cxx s = Accepted (Raised ty content)) /\
  (decay (vtype e) <> exception_ptr ->
   tag_fallback_invoke cxx s
   = Accepted (Raised (decay (vtype e)) (vdata e))) /\
  (forall r, tag_fallback_invoke cxx s <> Accepted (Returned r)) /\
  (exists o m0,
     tag_fallback_invoke cxx s = Accepted o /\
     boot cxx s = Accepted m0 /\
     every_run_returns m0 o).
Proof.
  intros Hc Hrt Hdecl.
  pose proof (error_generic_call cxx s Hc Hrt
                (declared_error_alternative _ Hdecl)) as E.
  rewrite visitor_on_copy in E.
  split; [|split; [|split]].
  - intros ty content Ht Hd. rewrite E, Ht, Hd. reflexivity.
  - intro Hne. apply ctype_eqb_neq in Hne. now rewrite E, Hne.
  - intro r. now apply error_generic_call_not_returned with (e := e).
  - destruct (generic_call_runs cxx s E) as (m0 & Hb & Hruns).
    eexists. exists m0. split; [exact E|]. now split.
Qed.

(** The sender declares the error type [int] and fails with code 7. *)
Lemma error_completion_raised_witness :
  let s := plain_sender [[int]] [int] (CompleteError (CValue int (DInt 7))) in
  tag_fallback_invoke no_conversions s = Accepted (Raised int (DInt 7)) /\
  (forall r, tag_fallback_invoke no_conversions s <> Accepted (Returned r)).
Proof.
  destruct (@error_completion_raised no_conversions
              (plain_sender [[int]] [int]
                 (CompleteError (CValue int (DInt 7))))
              [int] (CValue int (DInt 7)))
    as (_ & H2 & H3 & _).
  - reflexivity.
  - reflexivity.
  - right. simpl. left. reflexivity.
  - split; [apply H2; discriminate | exact H3].
Defined.

Example error_code_7 :
  tag_fallback_invoke no_conversions
    (plain_sender [[int]] [int] (CompleteError (CValue int (DInt 7))))
  = Accepted (Raised int (DInt 7)).
Proof. reflexivity. Qed.

(** The sender declares no error type and hands over an exception it
    caught. *)
Example captured_exception_rethrown :
  tag_fallback_invoke no_conversions
    (plain_sender [[int]] []
       (CompleteError
          (CValue (RRef exception_ptr)
             (DExn std_runtime_error (DStr "boom")))))
  = Accepted (Raised std_runtime_error (DStr "boom")).
Proof. reflexivity. Qed.

(** C3.  A sender whose types were deduced and that completes as stopped
    makes the generic call return a disengaged optional: the completion
    function leaves the value at [hpx::monostate] and sets the flag, the
    call returns without raising, and every run of its two threads keeps
    the value at [hpx::monostate], comes to an end and has returned the
    disengaged optional there. *)
Theorem stopped_completion_absent
  (cxx : conversions) (s : sender) (rt : list ctype) :
  completes s = CompleteStopped ->
  single_result_type (stype s) = Accepted rt ->
  tag_fallback_invoke cxx s = Accepted (Returned None) /\
  (exists st,
     start cxx rt (error_type (stype s)) (completes s) fresh_state
     = Accepted (Some st) /\
     value st = Monostate /\ set_called st = true) /\
  (exists m0,
     boot cxx s = Accepted m0 /\
     every_run_returns m0 (Returned None) /\
     forall schedule m,
       run schedule m0 = Some m -> value (shared m) = Monostate).
Proof.
  intros Hc Hrt.
  assert (E : tag_fallback_invoke cxx s = Accepted (Returned None)).
  { rewrite generic_call_resolves, Hrt, Hc. reflexivity. }
  split; [exact E|]. split.
  - rewrite Hc. simpl. eexists. split; [reflexivity|]. now split.
  - destruct (generic_call_runs cxx s E) as (m0 & Hb & Hruns).
    exists m0. split; [exact Hb|]. split; [exact Hruns|].
    intros schedule m Hrun.
    assert (Hm0 : m0 = started None).
    { unfold boot in Hb. rewrite Hrt, Hc in Hb. simpl in Hb. congruence. }
    subst m0. exact (run_value_monostate schedule Hrun).
Qed.

Lemma stopped_completion_absent_witness :
  let s := plain_sender [[int]] [] CompleteStopped in
  tag_fallback_invoke no_conversions s = Accepted (Returned None).
Proof.
  apply (@stopped_completion_absent no_conversions
           (plain_sender [[int]] [] CompleteStopped) [int]);
    reflexivity.
Defined.

(** ** Storing an error *)

(** C7, as the spec has it, does not hold.  An error of type [int] handed
    to the error completion function of a receiver whose sender declares
    no error type is not put into the [std::exception_ptr] alternative:
    [int] does not convert to [std::exception_ptr], the variant cannot be
    built from it and the completion function does not compile.  When the
    sender declares [long], the same error is stored, as a [long], in the
    alternative of [long]; the [std::exception_ptr] alternative stays
    unused there too. *)
Lemma undeclared_error_not_captured :
  let e := CValue int (DInt 7) in
  (let s := plain_type [[int]] [] in
   ~ In (decay (vtype e)) (error_signatures s) /\
   error_type s = [exception_ptr] /\
   set_error no_conversions (error_type s) fresh_state e = Rejected /\
   ~ (exists st stored_error,
        set_error no_conversions (error_type s) fresh_state e
        = Accepted (Some st) /\
        value st = ErrorAlt 0 stored_error)) /\
  (let s := plain_type [[int]] [long] in
   ~ In (decay (vtype e)) (error_signatures s) /\
   error_type s = [exception_ptr; long] /\
   exists st,
     set_error int_to_long (error_type s) fresh_state e = Accepted (Some st) /\
     value st = ErrorAlt 1 (CValue long (DInt 7))).
Proof.
  simpl. split.
  - split; [tauto|]. split; [reflexivity|]. split; [reflexivity|].
    intros (st & v & H & _). discriminate H.
  - split.
    + intros [H | []]. discriminate H.
    + split; [reflexivity|]. eexists. split; reflexivity.
Qed.

(** C7, amended.  An error whose type is [std::exception_ptr] or one of
    the declared error types is stored, as a decayed copy, in the
    alternative of [error_type] that has exactly this type, and the flag
    is set; that alternative is the first one exactly when the type is
    [std::exception_ptr]. *)
Theorem error_stored_in_matching_alternative
  (cxx : conversions) (s : sender_type) (st : shared_state) (e : cvalue) :
  decay (vtype e) = exception_ptr \/
    In (decay (vtype e)) (error_signatures s) ->
  exists i,
    nth_error (error_type s) i = Some (decay (vtype e)) /\
    set_error cxx (error_type s) st e
    = Accepted (signal_set_called
                  (with_value st (ErrorAlt i (decay_copy e)))) /\
    (i = 0 <-> decay (vtype e) = exception_ptr).
Proof.
  intro Hdecl. apply declared_error_alternative in Hdecl.
  destruct (variant_construct_exact cxx _ _ Hdecl) as (i & Hi & Hn & Hv).
  exists i. split; [assumption|]. split.
  - unfold set_error, emplace_error. now rewrite Hv.
  - destruct (error_type_head s) as [more E]. split.
    + intros ->. rewrite E in Hn. simpl in Hn. congruence.
    + intro Ht. rewrite Ht, E in Hi. simpl in Hi. congruence.
Qed.

(** A sender that declares [int] and [std::string] fails with a string:
    the error goes to the third alternative. *)
Lemma error_stored_in_matching_alternative_witness :
  let s := plain_type [[int]] [int; std_string] in
  let e := CValue (LRef (Const std_string)) (DStr "disk full") in
  exists i,
    nth_error (error_type s) i = Some std_string /\
    set_error no_conversions (error_type s) fresh_state e
    = Accepted (signal_set_called
                  (with_value fresh_state
                     (ErrorAlt i (CValue std_string (DStr "disk full"))))) /\
    (i = 0 <-> std_string = exception_ptr).
Proof.
  apply (@error_stored_in_matching_alternative no_conversions
           (plain_type [[int]] [int; std_string]) fresh_state
           (CValue (LRef (Const std_string)) (DStr "disk full"))).
  right. simpl. right. left. reflexivity.
Defined.

Example string_error_slot :
  set_error no_conversions
    (error_type (plain_type [[int]] [int; std_string])) fresh_state
    (CValue (LRef (Const std_string)) (DStr "disk full"))
  = Accepted
      (Some
      {| cond_var := []; mtx := None; set_called := true;
         value := ErrorAlt 2 (CValue std_string (DStr "disk full")) |}).
Proof. reflexivity. Qed.

(** An exception pointer goes to the first alternative whether the sender
    declares it or not. *)
Example exception_ptr_slot :
  set_error no_conversions (error_type (plain_type [[int]] [int])) fresh_state
    (CValue exception_ptr (DExn std_runtime_error (DStr "boom")))
  = Accepted
      (Some
      {| cond_var := []; mtx := None; set_called := true;
         value := ErrorAlt 0 (CValue exception_ptr
                                (DExn std_runtime_error (DStr "boom"))) |}).
Proof. reflexivity. Qed.

(** ** No values *)

(** C10.  A sender that declares the empty value signature and completes
    with no value makes the generic call return an engaged optional
    holding the empty tuple; this differs from the disengaged optional,
    which is what the call returns when a sender of the same type
    completes as stopped. *)
Theorem empty_value_completion_present
  (cxx : conversions) (s : sender) :
  completes s = CompleteValue [] ->
  single_result_type (stype s) = Accepted [] ->
  tag_fallback_invoke cxx s = Accepted (Returned (Some [])) /\
  Returned (Some []) <> Returned None /\
  (forall s',
     stype s' = stype s -> completes s' = CompleteStopped ->
     tag_fallback_invoke cxx s' = Accepted (Returned None) /\
     tag_fallback_invoke cxx s' <> tag_fallback_invoke cxx s).
Proof.
  intros Hc Hrt.
  assert (E : tag_fallback_invoke cxx s = Accepted (Returned (Some []))).
  { rewrite generic_call_resolves, Hrt, Hc. reflexivity. }
  split; [exact E|]. split; [discriminate|].
  intros s' Ht Hs.
  assert (E' : tag_fallback_invoke cxx s' = Accepted (Returned None)).
  { rewrite generic_call_resolves, Ht, Hrt, Hs. reflexivity. }
  split; [exact E'|]. rewrite E, E'. discriminate.
Qed.

Lemma empty_value_completion_present_witness :
  let s := plain_sender [[]] [] (CompleteValue []) in
  tag_fallback_invoke no_conversions s = Accepted (Returned (Some [])) /\
  Returned (Some []) <> Returned None /\
  (forall s',
     stype s' = stype s -> completes s' = CompleteStopped ->
     tag_fallback_invoke no_conversions s' = Accepted (Returned None) /\
     tag_fallback_invoke no_conversions s'
     <> tag_fallback_invoke no_conversions s).
Proof.
  apply (@empty_value_completion_present no_conversions
           (plain_sender [[]] [] (CompleteValue [])));
    reflexivity.
Defined.

(** ** Dispatch *)

Lemma override_found (s : sender_type) (sch : scheduler)
  (impl : completion -> outcome) :
  completion_scheduler s = Some sch ->
  scheduler_sync_wait sch = Some impl ->
  completion_scheduler_override s = Some (sch, impl).
Proof.
  intros H1 H2. unfold completion_scheduler_override. now rewrite H1, H2.
Qed.

(** The tier a call went through is the one its sender type selects. *)
Lemma sync_wait_path (cxx : conversions) (s : sender) (c : call) :
  sync_wait cxx s = Accepted c -> selected_tier (stype s) = Accepted (path c).
Proof.
  unfold sync_wait, selected_tier, tag_override_invoke.
  destruct (tag_override_viable (stype s)).
  - destruct (completion_scheduler_override (stype s)) as [[sch impl]|];
      simpl; [|discriminate].
    now intros [= <-].
  - destruct (tag_fallback_viable (stype s)); [|discriminate].
    destruct (tag_fallback_invoke cxx s); simpl; [discriminate|].
    now intros [= <-].
Qed.

(** C9.  For a sender, the call goes to the blocking wait of the
    completion scheduler of the value channel when there is such a
    scheduler and it has one: the outcome is what that implementation
    gives and the generic path is not taken.  Without such a scheduler or
    without such an implementation the call is the generic one.  Which of
    the two it is follows from the type of the sender alone. *)
Theorem dispatch_prefers_scheduler (cxx : conversions) (s : sender) :
  is_sender_v (stype s) = true ->
  (forall sch impl,
     completion_scheduler (stype s) = Some sch ->
     scheduler_sync_wait sch = Some impl ->
     sync_wait cxx s
     = Accepted {| path := SchedulerOverride (scheduler_name sch);
                   result := impl (completes s) |} /\
     selected_tier (stype s)
     = Accepted (SchedulerOverride (scheduler_name sch))) /\
  (is_completion_scheduler_tag_invocable_v (stype s) = false ->
   sync_wait cxx s
   = (r <- tag_fallback_invoke cxx s ;;
      Accepted {| path := GenericFallback; result := r |}) /\
   selected_tier (stype s) = Accepted GenericFallback) /\
  (forall c, sync_wait cxx s = Accepted c ->
             selected_tier (stype s) = Accepted (path c)) /\
  (forall s', stype s' = stype s ->
              forall c c', sync_wait cxx s = Accepted c ->
                           sync_wait cxx s' = Accepted c' ->
                           path c' = path c).
Proof.
  intro Hs. split; [|split; [|split]].
  - intros sch impl H1 H2.
    pose proof (override_found _ H1 H2) as Ho.
    unfold sync_wait, selected_tier, tag_override_invoke,
      tag_override_viable, is_completion_scheduler_tag_invocable_v.
    rewrite Hs, Ho. simpl. now split.
  - intro Hn.
    unfold sync_wait, selected_tier, tag_override_viable,
      tag_fallback_viable.
    rewrite Hs, Hn. simpl. now split.
  - intros c. apply sync_wait_path.
  - intros s' Ht c c' Hc Hc'.
    apply sync_wait_path in Hc, Hc'. rewrite Ht in Hc'. congruence.
Qed.

(** The sender runs on the instrumented scheduler: the answer is the one
    of the scheduler, not the 42 the sender completes with. *)
Lemma dispatch_prefers_scheduler_witness :
  let s := scheduled_sender (CompleteValue [CValue int (DInt 42)]) in
  sync_wait no_conversions s
  = Accepted {| path := SchedulerOverride "instrumented";
                result := Returned (Some [CValue int (DInt 1)]) |} /\
  selected_tier (stype s) = Accepted (SchedulerOverride "instrumented").
Proof.
  destruct (@dispatch_prefers_scheduler no_conversions
              (scheduled_sender (CompleteValue [CValue int (DInt 42)])))
    as (H & _).
  - reflexivity.
  - apply (H instrumented_scheduler
             (fun _ => Returned (Some [CValue int (DInt 1)])));
      reflexivity.
Defined.

Example plain_sender_generic :
  sync_wait no_conversions
    (plain_sender [[int]] [] (CompleteValue [CValue int (DInt 42)]))
  = Accepted {| path := GenericFallback;
                result := Returned (Some [CValue int (DInt 42)]) |}.
Proof. reflexivity. Qed.

(** Something that is not a sender is not accepted by either overload. *)
Example not_a_sender :
  sync_wait no_conversions
    {| stype := {| is_sender_v := false;
                   value_signatures := [[int]];
                   error_signatures := [];
                   sends_stopped := false;
                   completion_scheduler := Some instrumented_scheduler |};
       completes := CompleteStopped |}
  = Rejected.
Proof. reflexivity. Qed.

(** C8.  The stage made by the call without a sender, combined with a
    sender, is dispatched to the same implementation and gives the same
    outcome as the call on that sender: the same value, the same
    disengaged optional, the same exception or the same rejection. *)
Theorem deferred_form_same (cxx : conversions) (s : sender) :
  pipe cxx s sync_wait_deferred = sync_wait cxx s.
Proof. reflexivity. Qed.

Example deferred_stopped :
  pipe no_conversions (plain_sender [[int]] [] CompleteStopped)
    sync_wait_deferred
  = Accepted {| path := GenericFallback; result := Returned None |}.
Proof. reflexivity. Qed.

(** ** The receiver functions one after the other *)

(** [wait], for a caller beside which nothing runs, returns exactly
    when the flag is set, and hands back the state as it found it: the
    lock is not left held and nothing is written. *)
Lemma wait_returns_iff_set (st st' : shared_state) :
  wait st = Some st' <-> set_called st = true /\ st' = st.
Proof.
  unfold wait, lock.
  destruct (set_called st) eqn:E; simpl.
  - split; [intros [= <-]; now split | intros [_ ->]; reflexivity].
  - destruct (mtx st); simpl; [|rewrite E; simpl];
      split; try discriminate; intros [H _]; discriminate H.
Qed.

Lemma signal_set_called_effect (st st' : shared_state) :
  signal_set_called st = Some st' ->
  mtx st = None /\
  st' = {| cond_var := tl (cond_var st); mtx := None;
           set_called := true; value := value st |}.
Proof.
  unfold signal_set_called, lock.
  destruct (mtx st) eqn:E; [discriminate|].
  intros [= <-]. split; reflexivity.
Qed.

(** X1.  Whichever completion function the operation calls, when it comes
    back the flag is set, the lock is free again, one parked thread less
    is parked, and a [wait] that follows returns at once; the stopped
    completion leaves the value as it was.  It comes back only if the
    lock was free. *)
Theorem completion_then_wait
  (cxx : conversions) (rt alts : list ctype) (c : completion)
  (st st' : shared_state) :
  start cxx rt alts c st = Accepted (Some st') ->
  mtx st = None /\
  set_called st' = true /\
  mtx st' = None /\
  cond_var st' = tl (cond_var st) /\
  wait st' = Some st' /\
  (c = CompleteStopped -> value st' = value st).
Proof.
  intro H.
  assert (S : exists st0, signal_set_called st0 = Some st' /\
                          mtx st0 = mtx st /\ cond_var st0 = cond_var st /\
                          (c = CompleteStopped -> value st0 = value st)).
  { destruct c as [us | e |]; simpl in H.
    - unfold set_value in H.
      destruct (emplace_result cxx rt us) as [|x]; simpl in H;
        [discriminate|].
      injection H as H. eexists. split; [exact H|].
      repeat split; discriminate.
    - unfold set_error in H.
      destruct (emplace_error cxx alts e) as [|x]; simpl in H;
        [discriminate|].
      injection H as H. eexists. split; [exact H|].
      repeat split; discriminate.
    - injection H as H. exists st. now repeat split. }
  destruct S as (st0 & Hs & Hm & Hq & Hv).
  apply signal_set_called_effect in Hs as [Hfree ->]. simpl.
  rewrite <- Hm, <- Hq. repeat split; try assumption.
Qed.

Lemma completion_then_wait_witness :
  let st' := {| cond_var := []; mtx := None; set_called := true;
                value := ResultAlt [CValue int (DInt 42)] |} in
  mtx fresh_state = None /\
  set_called st' = true /\
  mtx st' = None /\
  cond_var st' = tl (cond_var fresh_state) /\
  wait st' = Some st' /\
  (CompleteValue [CValue int (DInt 42)] = CompleteStopped ->
   value st' = value fresh_state).
Proof.
  apply (@completion_then_wait no_conversions [int] [exception_ptr]
           (CompleteValue [CValue int (DInt 42)]) fresh_state).
  reflexivity.
Defined.

(** A completion function called while the lock is held does not come
    back as long as nothing else runs. *)
Example completion_with_lock_held :
  start no_conversions [int] [exception_ptr] CompleteStopped
    (with_mtx fresh_state (Some Consumer))
  = Accepted None.
Proof. reflexivity. Qed.

(** X2.  [get_value] tells the three states of the value apart: it
    returns an engaged optional exactly when a result is stored, and then
    that result; a disengaged one exactly when nothing is stored; and it
    does not return when an error is stored. *)
Theorem get_value_tells_states_apart (st : shared_state) :
  (forall t, get_value st = Returned (Some t) <-> value st = ResultAlt t) /\
  (get_value st = Returned None <-> value st = Monostate) /\
  (forall i e, value st = ErrorAlt i e ->
               forall r, get_value st <> Returned r).
Proof.
  unfold get_value.
  destruct (value st) as [| i e | t'] eqn:E;
    (split; [|split]).
  - intro t. split; discriminate.
  - split; reflexivity.
  - intros i e. discriminate.
  - intro t. split; [|discriminate].
    intro H. now apply visitor_never_returns in H.
  - split; [|discriminate].
    intro H. now apply visitor_never_returns in H.
  - intros i' e' _ r. apply visitor_never_returns.
  - intro t. split; congruence.
  - split; discriminate.
  - intros i e. discriminate.
Qed.

(** ** Errors that are not thrown as they came *)

(** X3.  A sender that hands a null [std::exception_ptr] to the error
    completion function gets it stored like any other, and the generic
    call then rethrows it: [get_value] does not look whether the pointer
    holds an exception, so the precondition of [std::rethrow_exception]
    is broken. *)
Theorem null_exception_ptr_rethrown
  (cxx : conversions) (s : sender) (rt : list ctype) (e : cvalue) :
  completes s = CompleteError e ->
  single_result_type (stype s) = Accepted rt ->
  decay (vtype e) = exception_ptr ->
  vdata e = DNull ->
  tag_fallback_invoke cxx s = Accepted Undefined.
Proof.
  intros Hc Hrt Ht Hd.
  rewrite (error_generic_call cxx s Hc Hrt).
  - rewrite visitor_on_copy, Ht, Hd. reflexivity.
  - apply declared_error_alternative. now left.
Qed.

Lemma null_exception_ptr_rethrown_witness :
  tag_fallback_invoke no_conversions
    (plain_sender [[int]] [] (CompleteError (CValue exception_ptr DNull)))
  = Accepted Undefined.
Proof.
  apply (@null_exception_ptr_rethrown no_conversions
           (plain_sender [[int]] []
              (CompleteError (CValue exception_ptr DNull)))
           [int] (CValue exception_ptr DNull));
    reflexivity.
Defined.

(** X4.  An error whose type is none of the alternatives but converts to
    one of them is stored converted, and the generic call throws what was
    stored: the exception has the type of the alternative, not the type
    the sender gave. *)
Theorem converted_error_raised
  (cxx : conversions) (s : sender) (rt : list ctype) (e : cvalue)
  (i : nat) (t : ctype) (d : data) :
  completes s = CompleteError e ->
  single_result_type (stype s) = Accepted rt ->
  ~ In (decay (vtype e)) (error_type (stype s)) ->
  overload cxx (error_type (stype s)) e = Some i ->
  nth_error (error_type (stype s)) i = Some t ->
  implicit cxx t e = Some d ->
  remove_cv t <> exception_ptr ->
  tag_fallback_invoke cxx s = Accepted (Raised (remove_cv t) d).
Proof.
  intros Hc Hrt Hn Ho Ht Hd Hne.
  rewrite generic_call_resolves, Hrt, Hc. simpl.
  unfold emplace_error, variant_construct.
  rewrite (index_of_None ctype_eqb ctype_eqb_eq _ _ Hn), Ho. simpl.
  rewrite Ht. simpl. rewrite Hd. simpl.
  unfold get_value, sync_wait_error_visitor. simpl.
  apply ctype_eqb_neq in Hne. now rewrite Hne.
Qed.

(** The sender declares [long] and fails with the [int] 7: a [long] is
    thrown. *)
Lemma converted_error_raised_witness :
  tag_fallback_invoke int_to_long
    (plain_sender [[int]] [long] (CompleteError (CValue int (DInt 7))))
  = Accepted (Raised long (DInt 7)).
Proof.
  apply (@converted_error_raised int_to_long
           (plain_sender [[int]] [long]
              (CompleteError (CValue int (DInt 7))))
           [int] (CValue int (DInt 7)) 1 long (DInt 7));
    try reflexivity.
  - simpl. intros [H | [H | []]]; discriminate H.
  - discriminate.
Defined.

(** ** The result tuple *)







Lemma make_decayed_pack_owned (sig : list ctype) :
  Forall (fun t => well_formed t = true) sig ->
  Forall (fun t => is_reference t = false /\ is_cv_qualified t = false)
         (make_decayed_pack_t sig).
Proof.
  unfold make_decayed_pack_t.
  induction 1 as [|t ts Ht _ IH]; simpl; constructor; [|assumption].
  destruct (decay_owned _ Ht) as (H1 & H2 & _). now split.
Qed.

(** X7.  When every declared value type is a type the language can form,
    no element of the deduced result type is a reference or
    cv-qualified, and the result type has as many elements as the
    signature it comes from. *)
Theorem result_type_owned (s : sender_type) (rt : list ctype) :
  single_result_type s = Accepted rt ->
  (forall sig, In sig (value_signatures s) ->
               Forall (fun t => well_formed t = true) sig) ->
  Forall (fun t => is_reference t = false /\ is_cv_qualified t = false) rt /\
  (forall sig, In sig (value_signatures s) -> length rt = length sig).
Proof.
  intros H W.
  apply single_result_type_one_shape in H as (sig & -> & Hin & Hall).
  split.
  - apply make_decayed_pack_owned. now apply W.
  - intros sig' Hs. rewrite (Hall sig' Hs).
    unfold make_decayed_pack_t. apply length_map.
Qed.

Lemma result_type_owned_witness :
  Forall (fun t => is_reference t = false /\ is_cv_qualified t = false)
    [int; Pointer (Const int)] /\
  (forall sig,
     In sig [[RRef (Const int); LRef (ArrayOf (Const int) 3)]] ->
     length [int; Pointer (Const int)] = length sig).
Proof.
  apply (@result_type_owned
           (plain_type [[RRef (Const int); LRef (ArrayOf (Const int) 3)]] [])
           [int; Pointer (Const int)]).
  - reflexivity.
  - intros sig [<- | []]. repeat constructor.
Defined.

(** ** The error alternatives, once more *)

Lemma unique_helper_cons (A : Type) (eqb : A -> A -> bool)
  (a : A) (rest seen : list A) :
  unique_helper eqb (a :: seen) rest
  = a :: unique_helper eqb seen (filter (fun x => negb (eqb x a)) rest).
Proof.
  revert seen. induction rest as [|y ys IH]; intro seen; simpl.
  - reflexivity.
  - destruct (eqb y a) eqn:E; simpl.
    + apply IH.
    + destruct (contains eqb y seen); [apply IH|].
      rewrite <- IH. reflexivity.
Qed.

(** X8.  [error_type] is [std::exception_ptr] followed by the declared
    error types other than [std::exception_ptr], each once, in the order
    in which they are first declared: a sender that declares
    [std::exception_ptr] itself, wherever and however often, gets the
    same variant as one that does not. *)
Theorem error_type_absorbs_exception_ptr (s : sender_type) :
  error_type s
  = exception_ptr ::
    unique_t ctype_eqb
      (filter (fun t => negb (ctype_eqb t exception_ptr))
         (error_signatures s)).
Proof.
  unfold error_type, prepend_t, predecessor_error_types, unique_t.
  simpl. apply unique_helper_cons.
Qed.

Example error_type_exception_ptr_declared :
  error_type (plain_type [[int]] [int; exception_ptr; long; exception_ptr])
  = error_type (plain_type [[int]] [int; long]).
Proof. reflexivity. Qed.

(** ** More on the two threads *)

Lemma consistent_exclusion (write : option cell) (m : machine) :
  consistent write m ->
  producer_holds (producer m) && consumer_holds (consumer m) = false /\
  (mtx (shared m) = Some Producer <-> producer_holds (producer m) = true) /\
  (mtx (shared m) = Some Consumer <-> consumer_holds (consumer m) = true).
Proof.
  intros [Hpc Hm _ _ _ _ _]. rewrite Hm.
  destruct (producer m), (consumer m); simpl in Hpc |- *;
    try discriminate;
    (split; [reflexivity|]); split; split; congruence.
Qed.

(** X9.  At every point of every run of the two threads, at most one of
    them is between taking and releasing [mtx], and [mtx] is held by
    exactly the thread that is there: the flag is set, [notify_one]
    called and the second look at the flag taken under mutual
    exclusion. *)
Theorem lock_excludes
  (write : option cell) (schedule : list thread) (m : machine) :
  run schedule (started write) = Some m ->
  producer_holds (producer m) && consumer_holds (consumer m) = false /\
  (mtx (shared m) = Some Producer <-> producer_holds (producer m) = true) /\
  (mtx (shared m) = Some Consumer <-> consumer_holds (consumer m) = true).
Proof.
  intro Hrun. apply (@consistent_exclusion write).
  exact (run_consistent schedule (started_consistent write) Hrun).
Qed.

(** The caller holds the lock for its second look while the completion
    function has not got further than asking for it. *)
Lemma lock_excludes_witness :
  exists m,
    run [Producer; Consumer; Consumer]
      (started (Some (ResultAlt [CValue int (DInt 42)]))) = Some m /\
    consumer m = CRecheck /\ producer m = PLock /\
    (producer_holds (producer m) && consumer_holds (consumer m) = false /\
     (mtx (shared m) = Some Producer <-> producer_holds (producer m) = true) /\
     (mtx (shared m) = Some Consumer <-> consumer_holds (consumer m) = true)).
Proof.
  eexists. split; [reflexivity|]. split; [reflexivity|].
  split; [reflexivity|].
  apply (@lock_excludes (Some (ResultAlt [CValue int (DInt 42)]))
           [Producer; Consumer; Consumer]).
  reflexivity.
Defined.

Lemma step_keeps_flag (t : thread) (m m' : machine) :
  step t m = Some m' ->
  set_called (shared m) = true -> set_called (shared m') = true.
Proof.
  destruct m as [[q mt f v] p c]. simpl. intros Hs ->.
  destruct t; [destruct p | destruct c]; simpl in Hs;
    unfold lock, parked in Hs; simpl in Hs;
    try destruct (existsb (thread_eqb Consumer) q);
    try destruct mt; simpl in Hs; try discriminate;
    injection Hs as <-; reflexivity.
Qed.

Lemma run_keeps_flag (schedule : list thread) (m m' : machine) :
  run schedule m = Some m' ->
  set_called (shared m) = true ->
  set_called (shared m') = true.
Proof.
  revert m. induction schedule as [|t ts IH]; intros m; simpl.
  - now intros [= <-].
  - destruct (step t m) as [m1|] eqn:E; [|discriminate].
    intros Hrun Hf. apply (IH m1 Hrun). exact (step_keeps_flag t m E Hf).
Qed.

(** X10.  The flag is set once and for all: from any state of the two
    threads in which it is set, no step of either thread, in any order,
    clears it. *)
Theorem flag_set_for_good (schedule : list thread) (m m' : machine) :
  run schedule m = Some m' ->
  set_called (shared m) = true ->
  set_called (shared m') = true.
Proof. apply run_keeps_flag. Qed.

Lemma flag_set_for_good_witness :
  exists m m',
    run [Producer; Producer; Producer] (started (Some Monostate)) = Some m /\
    run [Consumer; Producer; Consumer; Producer] m = Some m' /\
    set_called (shared m') = true.
Proof.
  do 2 eexists. split; [reflexivity|]. split; [reflexivity|].
  apply (@flag_set_for_good [Consumer; Producer; Consumer; Producer]
           {| shared := {| cond_var := []; mtx := Some Producer;
                           set_called := true; value := Monostate |};
              producer := PNotify; consumer := CFastCheck |});
    reflexivity.
Defined.






(** X13.  The caller can be back from the call while the completion
    function is still inside [signal_set_called]: the first look at the
    flag is taken without the lock, so a caller that comes by after the
    flag is set and before [notify_one] leaves [wait], reads the value
    and returns, and the completion function, still holding [mtx], goes
    on to use [cond_var] and [mtx] of the state of that call. *)
Theorem caller_returns_before_unlock (write : option cell) :
  exists schedule m,
    run schedule (started write) = Some m /\
    consumer m
    = CReturned (get_value (with_value fresh_state (stored write))) /\
    producer m = PNotify /\
    mtx (shared m) = Some Producer /\
    step Producer m <> None.
Proof.
  destruct write as [c|].
  - exists [Producer; Producer; Producer; Consumer; Consumer].
    eexists. split; [reflexivity|]. simpl.
    repeat split; discriminate.
  - exists [Producer; Producer; Consumer; Consumer].
    eexists. split; [reflexivity|]. simpl.
    repeat split; discriminate.
Qed.

(** X14.  A caller that had to take the lock in [wait] gets on only in
    step with the completion function: it parks only while the flag is
    unset and the completion function is not yet past asking for the
    lock, and when it is about to release the lock and leave [wait], the
    completion function has released the lock and is through. *)
Theorem slow_path_in_step
  (write : option cell) (schedule : list thread) (m : machine) :
  run schedule (started write) = Some m ->
  (consumer m = CCondWait ->
   set_called (shared m) = false /\ producer_holds (producer m) = false /\
   producer m <> PDone) /\
  (consumer m = CUnlock -> producer m = PDone).
Proof.
  intro Hrun.
  destruct (run_consistent schedule (started_consistent write) Hrun)
    as [Hpc _ Hf _ _ _ _].
  rewrite Hf.
  split; intro Hc; rewrite Hc in Hpc;
    destruct (producer m); simpl in Hpc |- *; try discriminate;
    repeat split; discriminate.
Qed.

Lemma slow_path_in_step_witness :
  exists m,
    run [Consumer; Consumer; Consumer]
      (started (Some (ResultAlt [CValue int (DInt 42)]))) = Some m /\
    ((consumer m = CCondWait ->
      set_called (shared m) = false /\ producer_holds (producer m) = false /\
      producer m <> PDone) /\
     (consumer m = CUnlock -> producer m = PDone)).
Proof.
  eexists. split; [reflexivity|].
  apply (@slow_path_in_step (Some (ResultAlt [CValue int (DInt 42)]))
           [Consumer; Consumer; Consumer]).
  reflexivity.
Defined.



Lemma step_fast_path (t : thread) (m m' : machine) :
  step t m = Some m' ->
  set_called (shared m) = true ->
  on_fast_path (consumer m) = true ->
  mtx (shared m) <> Some Consumer ->
  on_fast_path (consumer m') = true /\
  mtx (shared m') <> Some Consumer /\
  cond_var (shared m') = match t, producer m with
                         | Producer, PNotify => tl (cond_var (shared m))
                         | _, _ => cond_var (shared m)
                         end.
Proof.
  destruct m as [[q mt f v] p c]. simpl. intros Hs -> Hfast Hm.
  destruct t; [destruct p | destruct c]; simpl in Hs, Hfast;
    unfold lock in Hs; simpl in Hs;
    try discriminate Hfast;
    try destruct mt as [[|]|]; simpl in Hs; try discriminate;
    try (now destruct Hm);
    injection Hs as <-; simpl; repeat split; try assumption;
    discriminate.
Qed.

(** X16.  A caller that finds the flag set at its first look never takes
    the lock and never parks: from a state in which the flag is set and
    the caller is about to enter [wait], whatever the two threads do, the
    caller is never the owner of [mtx] and stays on the path that leads
    straight to [get_value]. *)
Theorem fast_path_takes_no_lock (rest : list thread) (m m' : machine) :
  consumer m = CFastCheck ->
  set_called (shared m) = true ->
  mtx (shared m) <> Some Consumer ->
  run rest m = Some m' ->
  mtx (shared m') <> Some Consumer /\
  consumer_holds (consumer m') = false /\
  consumer m' <> CParked /\
  on_fast_path (consumer m') = true.
Proof.
  intros Hc Hf Hm Hrun.
  assert (Hfast : on_fast_path (consumer m) = true) by now rewrite Hc.
  clear Hc.
  assert (G : on_fast_path (consumer m') = true /\
              mtx (shared m') <> Some Consumer).
  { revert m Hf Hm Hfast Hrun.
    induction rest as [|t ts IH]; intros m Hf Hm Hfast; simpl.
    - intros [= <-]. now split.
    - destruct (step t m) as [m1|] eqn:E; [|discriminate].
      destruct (step_fast_path t m E Hf Hfast Hm) as (H1 & H2 & _).
      apply IH; try assumption.
      exact (step_keeps_flag t m E Hf). }
  destruct G as [G1 G2].
  repeat split; try assumption;
    destruct (consumer m'); simpl in G1 |- *; try discriminate;
    reflexivity.
Qed.

(** The completion function is through before the caller enters
    [wait]. *)
Lemma fast_path_takes_no_lock_witness :
  exists m m',
    run [Producer; Producer; Producer; Producer; Producer]
      (started (Some (ResultAlt [CValue int (DInt 42)]))) = Some m /\
    run [Consumer; Consumer] m = Some m' /\
    consumer m' = CReturned (Returned (Some [CValue int (DInt 42)])) /\
    (mtx (shared m') <> Some Consumer /\
     consumer_holds (consumer m') = false /\
     consumer m' <> CParked /\
     on_fast_path (consumer m') = true).
Proof.
  do 2 eexists. split; [reflexivity|]. split; [reflexivity|].
  split; [reflexivity|].
  apply (@fast_path_takes_no_lock [Consumer; Consumer]
           {| shared := {| cond_var := []; mtx := None; set_called := true;
                           value := ResultAlt [CValue int (DInt 42)] |};
              producer := PDone; consumer := CFastCheck |}).
  - reflexivity.
  - reflexivity.
  - discriminate.
  - reflexivity.
Defined.

(** ** Reading the outcome backwards *)

(** X17.  What the generic call does tells how the sender completed.  The
    call never leaves the caller parked; a disengaged optional comes from
    the stopped completion only, and an exception, or a broken
    precondition of [std::rethrow_exception], from the error completion
    only. *)
Theorem outcome_tells_completion (cxx : conversions) (s : sender) :
  tag_fallback_invoke cxx s <> Accepted NeverReturns /\
  (tag_fallback_invoke cxx s = Accepted (Returned None) ->
   completes s = CompleteStopped) /\
  (forall ty d, tag_fallback_invoke cxx s = Accepted (Raised ty d) ->
                exists e, completes s = CompleteError e) /\
  (tag_fallback_invoke cxx s = Accepted Undefined ->
   exists e, completes s = CompleteError e).
Proof.
  rewrite generic_call_resolves.
  destruct (single_result_type (stype s)) as [|rt]; simpl.
  - repeat split; try discriminate; intros; discriminate.
  - destruct (completes s) as [us | e |]; simpl.
    + unfold emplace_result.
      destruct (tuple_construct cxx rt us) as [|t]; simpl;
        repeat split; try discriminate; intros; discriminate.
    + unfold emplace_error.
      destruct (variant_construct cxx (error_type (stype s)) e)
        as [|[i v]]; simpl.
      * repeat split; try discriminate; intros; discriminate.
      * split; [|split; [|split]].
        -- unfold get_value, sync_wait_error_visitor, rethrow_exception.
           simpl.
           destruct (ctype_eqb (remove_cv (vtype v)) exception_ptr);
             [destruct (vdata v)|]; discriminate.
        -- intros [= H]. now apply visitor_never_returns in H.
        -- intros ty d _. now exists e.
        -- intros _. now exists e.
    + repeat split; try discriminate; intros; discriminate.
Qed.
